(** * Fragmented Squares: the game-state engine of [Code.py]

    A shallow embedding of the class [FragmentedSquaresGame] and the
    properties of its move legality, destruction, win detection, history
    and reset.

    Modelling choices.
    - Grid coordinates are Python integers: [Z].  A square is a pair
      [(r, c)], an edge a pair [((r, c), orientation)].
    - Python [set]s of squares are [gset]s, the [edges] dictionary is a
      [gmap] from edge tuples to the two-field dictionary
      [{'color', 'exists'}].
    - The two player constants, the two edge colours and the two
      orientation constants are enumerations; [player_str] gives back
      the Python string of a player.  A tuple with any other orientation
      is never a key of [edges] and is outside the model.
    - [random.choice([RED, BLUE])] is called once per created edge.  Its
      outcomes are supplied by an oracle [choice : Edge -> Color]; every
      theorem quantifies over the oracle, hence over every outcome of
      the random draws.
    - [for] loops over sets are folds over the set's elements
      ([set_fold]); the order of iteration is the one of [elements].
    - [print] calls produce console output only and are left out.
    - [self] is passed explicitly; a method that mutates [self] returns
      the new object. *)

From stdpp Require Import gmap strings list fin_maps fin_sets pretty.

Open Scope Z_scope.

(** ** Constants *)

Inductive Player := LEFT_PLAYER | RIGHT_PLAYER.

Inductive Color := BLUE | RED.

Inductive Orientation := HORIZONTAL | VERTICAL.

#[global] Instance Player_eq_dec : EqDecision Player.
Proof. solve_decision. Defined.

#[global] Instance Color_eq_dec : EqDecision Color.
Proof. solve_decision. Defined.

#[global] Instance Orientation_eq_dec : EqDecision Orientation.
Proof. solve_decision. Defined.

#[global] Instance Orientation_countable : Countable Orientation.
Proof.
  refine (inj_countable'
            (λ o, match o with HORIZONTAL => false | VERTICAL => true end)
            (λ b : bool, if b then VERTICAL else HORIZONTAL) _).
  by intros [].
Defined.

(** The Python value of the two player constants. *)
Definition player_str (p : Player) : string :=
  match p with
  | LEFT_PLAYER => "Left (Blue)"
  | RIGHT_PLAYER => "Right (Red)"
  end.

Abbreviation Square := (Z * Z)%type.
Abbreviation Edge := ((Z * Z) * Orientation)%type.

(** ** Data model *)

(** The value stored for an edge: [{'color': COLOR, 'exists': bool}]. *)
Record EdgeInfo := mkEdgeInfo {
  color : Color;
  exists_ : bool
}.

(** One entry of [move_history] (the dictionary [move_data]). *)
Module MoveData.
Record t := mk {
  turn : nat;
  player : Player;
  edge_removed : Edge;
  edge_color : string;
  squares_destroyed : gset Square;
  active_squares_before : gset Square;
  active_squares_after : gset Square;
  game_over_after : bool;
  winner : option Player
}.
End MoveData.

(** The attributes of a [FragmentedSquaresGame] object. *)
Record Game := mkGame {
  all_squares_coords : gset Square;
  active_squares_coords : gset Square;
  edges : gmap Edge EdgeInfo;
  current_player : Player;
  winner : option Player;
  last_move_destructions : nat;
  move_history : list MoveData.t
}.

(** The dictionary returned by [get_state_summary]. *)
Module Summary.
Record t := mk {
  active_squares : nat;
  current_player : Player;
  winner : option Player;
  total_moves : nat
}.
End Summary.

(** ** Geometry *)

(** [get_squares_sharing_edge]: the squares on the two sides of an edge,
    kept only when they belong to the original shape. *)
Definition get_squares_sharing_edge (self : Game) (edge_tuple : Edge)
  : gset Square :=
  let '((r, c), orientation) := edge_tuple in
  let squares : gset Square :=
    match orientation with
    | HORIZONTAL => ({[ (r, c) ]} : gset Square) ∪ {[ (r + 1, c) ]}
    | VERTICAL => ({[ (r, c) ]} : gset Square) ∪ {[ (r, c + 1) ]}
    end in
  squares ∩ all_squares_coords self.

(** [get_edges_of_square]: the four edge tuples around a square. *)
Definition get_edges_of_square (square_coord : Square) : gset Edge :=
  let '(r, c) := square_coord in
  {[ ((r - 1, c), HORIZONTAL);
     ((r, c), HORIZONTAL);
     ((r, c - 1), VERTICAL);
     ((r, c), VERTICAL) ]}.

(** ** Construction and reset *)

(** First loop of [_initialize_edges]: the body adds the four edges of
    one square to [potential_edges]. *)
Definition add_potential_edges (sq : Square) (potential_edges : gset Edge)
  : gset Edge :=
  let '(r, c) := sq in
  potential_edges ∪ {[ ((r, c), HORIZONTAL) ]}
                  ∪ {[ ((r, c), VERTICAL) ]}
                  ∪ {[ ((r - 1, c), HORIZONTAL) ]}
                  ∪ {[ ((r, c - 1), VERTICAL) ]}.

(** Second loop of [_initialize_edges]: the body processes one potential
    edge against the object whose [edges] dictionary is being filled. *)
Definition add_edge (choice : Edge → Color) (edge_tuple : Edge) (self : Game)
  : Game :=
  match edges self !! edge_tuple with
  | Some _ => self
  | None =>
      let squares_bordered := get_squares_sharing_edge self edge_tuple in
      if decide (squares_bordered ∩ all_squares_coords self ≠ ∅) then
        mkGame (all_squares_coords self) (active_squares_coords self)
               (<[ edge_tuple := mkEdgeInfo (choice edge_tuple) true ]>
                  (edges self))
               (current_player self) (winner self)
               (last_move_destructions self) (move_history self)
      else self
  end.

Definition _initialize_edges (choice : Edge → Color) (self : Game) : Game :=
  let potential_edges :=
    set_fold add_potential_edges (∅ : gset Edge) (all_squares_coords self) in
  set_fold (add_edge choice) self potential_edges.

(** [reset]: only [all_squares_coords] of the old object is read. *)
Definition reset (choice : Edge → Color) (self : Game) : Game :=
  _initialize_edges choice
    (mkGame (all_squares_coords self)
            (all_squares_coords self)
            ∅
            LEFT_PLAYER
            None
            0%nat
            []).

(** The object before [__init__] has assigned anything but the shape. *)
Definition blank (squares_coords : gset Square) : Game :=
  mkGame squares_coords ∅ ∅ LEFT_PLAYER None 0%nat [].

(** [__init__]: [None] stands for the raised [ValueError]. *)
Definition init (choice : Edge → Color) (squares_coords : gset Square)
  : option Game :=
  if decide (squares_coords = ∅) then None
  else Some (reset choice (blank squares_coords)).

(** ** Move legality *)

(** The generator expression [any(sq in active for sq in squares)]. *)
Definition any_active (self : Game) (squares : gset Square) : bool :=
  existsb (λ sq, bool_decide (sq ∈ active_squares_coords self))
          (elements squares).

Definition is_valid_move (self : Game) (edge_tuple : Edge) : bool :=
  match winner self with
  | Some _ => false
  | None =>
      match edges self !! edge_tuple with
      | None => false
      | Some info =>
          if negb (exists_ info) then false
          else
            let edge_color := color info in
            let player_can_remove :=
              (bool_decide (current_player self = LEFT_PLAYER)
                 && bool_decide (edge_color = BLUE))
              || (bool_decide (current_player self = RIGHT_PLAYER)
                    && bool_decide (edge_color = RED)) in
            if negb player_can_remove then false
            else
              let squares_bordered :=
                get_squares_sharing_edge self edge_tuple in
              let borders_active_square :=
                any_active self squares_bordered in
              if negb borders_active_square then false
              else true
      end
  end.

(** [get_legal_moves]: the dictionary is walked in the order of its
    key list. *)
Definition get_legal_moves (self : Game) : list Edge :=
  filter (λ edge_tuple, is_valid_move self edge_tuple = true)
         (map fst (map_to_list (edges self))).

(** ** Applying a move *)

(** The formatted string
    [f"Incorrect color (Player: {player}, Edge: {'Blue' if ... else 'Red'})"]. *)
Definition incorrect_color_reason (p : Player) (edge_color : Color) : string :=
  "Incorrect color (Player: " +:+ player_str p
    +:+ ", Edge: "
    +:+ (if bool_decide (edge_color = BLUE) then "Blue" else "Red")
    +:+ ")".

(** The diagnosis made by [make_move] once [is_valid_move] has answered
    [False]. *)
Definition failure_reason (self : Game) (edge_tuple : Edge) : string :=
  match edges self !! edge_tuple with
  | None => "Edge does not exist or already removed"
  | Some info =>
      if negb (exists_ info) then "Edge does not exist or already removed"
      else
        let edge_color := color info in
        let player_req_color :=
          if bool_decide (current_player self = LEFT_PLAYER)
          then BLUE else RED in
        if bool_decide (edge_color ≠ player_req_color) then
          incorrect_color_reason (current_player self) edge_color
        else
          let squares_bordered := get_squares_sharing_edge self edge_tuple in
          if negb (any_active self squares_bordered) then
            "Edge does not border any active squares"
          else "Unknown reason"
  end.

(** Body of the destruction loop; the state is the pair of
    [self.active_squares_coords] and [destroyed_this_turn]. *)
Definition destroy_square (sq_coord : Square)
  (st : gset Square * gset Square) : gset Square * gset Square :=
  let '(active, destroyed_this_turn) := st in
  if decide (sq_coord ∈ active) then
    (active ∖ {[ sq_coord ]}, destroyed_this_turn ∪ {[ sq_coord ]})
  else st.

(** [make_move] returns the new object with the pair
    [(success_boolean, message_string)].

    In the success path the dictionary is subscripted with a key that
    [is_valid_move] has just found ([valid_move_in_edges]), so no
    [KeyError] can be raised: [alter] writes the flag of the present
    key and the colour is read through the lookup. *)
Definition make_move (self : Game) (edge_tuple : Edge)
  : Game * (bool * string) :=
  if negb (is_valid_move self edge_tuple) then
    let reason := failure_reason self edge_tuple in
    (self, (false, "Invalid Move: " +:+ reason))
  else
    let edges' :=
      alter (λ info, mkEdgeInfo (color info) false) edge_tuple (edges self) in
    let edge_color := color <$> edges' !! edge_tuple in
    let squares_potentially_affected :=
      get_squares_sharing_edge self edge_tuple in
    let '(active', destroyed_this_turn) :=
      set_fold destroy_square (active_squares_coords self, ∅)
               squares_potentially_affected in
    let last_move_destructions' := size destroyed_this_turn in
    let active_squares_before_move := active' ∪ destroyed_this_turn in
    let move_data :=
      MoveData.mk (length (move_history self) + 1)%nat
                  (current_player self)
                  edge_tuple
                  (if bool_decide (edge_color = Some BLUE)
                   then "Blue" else "Red")
                  destroyed_this_turn
                  active_squares_before_move
                  active'
                  false
                  None in
    let game_over := bool_decide (active' = ∅) in
    let winner' := if game_over then Some (current_player self)
                   else winner self in
    let move_data' :=
      if game_over then
        MoveData.mk (MoveData.turn move_data) (MoveData.player move_data)
                    (MoveData.edge_removed move_data)
                    (MoveData.edge_color move_data)
                    (MoveData.squares_destroyed move_data)
                    (MoveData.active_squares_before move_data)
                    (MoveData.active_squares_after move_data)
                    true
                    winner'
      else move_data in
    let move_history' := move_history self ++ [move_data'] in
    let current_player' :=
      match winner' with
      | Some _ => current_player self
      | None =>
          if bool_decide (current_player self = LEFT_PLAYER)
          then RIGHT_PLAYER else LEFT_PLAYER
      end in
    (mkGame (all_squares_coords self) active' edges' current_player'
            winner' last_move_destructions' move_history',
     (true,
      "Destroyed " +:+ pretty last_move_destructions' +:+ " square(s).")).

Definition get_state_summary (self : Game) : Summary.t :=
  Summary.mk (size (active_squares_coords self))
             (current_player self)
             (winner self)
             (length (move_history self)).

(** ** Sequences of calls *)

(** The object after the calls [make_move(e)] for [e] in [es], in order. *)
Fixpoint run (self : Game) (es : list Edge) : Game :=
  match es with
  | [] => self
  | e :: es' => run (fst (make_move self e)) es'
  end.

(** The successful calls of such a sequence, each with the object just
    before and just after it. *)
Fixpoint successes (self : Game) (es : list Edge) : list (Game * Game) :=
  match es with
  | [] => []
  | e :: es' =>
      let '(self', (ok, _)) := make_move self e in
      if ok then (self, self') :: successes self' es'
      else successes self' es'
  end.

(** A call of the public interface that changes the object. *)
Inductive Call :=
| CallMove (edge_tuple : Edge)
| CallReset (choice : Edge → Color).

Definition call (self : Game) (k : Call) : Game :=
  match k with
  | CallMove e => fst (make_move self e)
  | CallReset choice => reset choice self
  end.

Definition run_calls (self : Game) (ks : list Call) : Game :=
  foldl call self ks.

(** Whether the flag of an edge is set: [e in edges and edges[e]['exists']]. *)
Definition edge_exists (self : Game) (e : Edge) : bool :=
  match edges self !! e with
  | Some info => exists_ info
  | None => false
  end.

(** The colour owned by a player. *)
Definition player_color (p : Player) : Color :=
  match p with
  | LEFT_PLAYER => BLUE
  | RIGHT_PLAYER => RED
  end.

(** ** Notions used in the statements *)

(** The squares a move on [e] destroys: the squares sharing the edge that
    are active when the move is made. *)
Definition destroyed_by (self : Game) (e : Edge) : gset Square :=
  get_squares_sharing_edge self e ∩ active_squares_coords self.

(** What [_initialize_edges] leaves alone: everything but [edges]. *)
Definition same_but_edges (g g' : Game) : Prop :=
  all_squares_coords g' = all_squares_coords g ∧
  active_squares_coords g' = active_squares_coords g ∧
  current_player g' = current_player g ∧
  winner g' = winner g ∧
  last_move_destructions g' = last_move_destructions g ∧
  move_history g' = move_history g.

(** A game that has a winner has no active square left, in every
    object reached from a constructed game. *)
Definition finished_means_empty (self : Game) : Prop :=
  winner self ≠ None → active_squares_coords self = ∅.

(** What the history integrity property reads of an entry: its turn
    number and its two snapshots of the active squares. *)
Definition snapshots (r : MoveData.t) : nat * gset Square * gset Square :=
  (MoveData.turn r, MoveData.active_squares_before r,
   MoveData.active_squares_after r).

(** What the entry of the [n]-th move must hold, given the objects just
    before and just after that move. *)
Definition expected_snapshots (n : nat) (ss : Game * Game)
  : nat * gset Square * gset Square :=
  (n, active_squares_coords (fst ss), active_squares_coords (snd ss)).

(** [expected_snapshots] along a trace whose first move has number [n]. *)
Fixpoint expected_from (n : nat) (tr : list (Game * Game))
  : list (nat * gset Square * gset Square) :=
  match tr with
  | [] => []
  | ss :: tr' => expected_snapshots n ss :: expected_from (S n) tr'
  end.

(** ** Boards used as concrete inputs *)

(** The shapes defined in [main]. *)
Definition l_shape_squares : gset Square := {[ (0, 0); (0, 1); (1, 0) ]}.
Definition simple_square : gset Square := {[ (0, 0) ]}.
Definition two_by_two : gset Square := {[ (0, 0); (0, 1); (1, 0); (1, 1) ]}.
Definition long_strip : gset Square := {[ (0, 0); (0, 1); (0, 2); (0, 3) ]}.

(** Two outcomes of the random colouring: every horizontal edge blue and
    every vertical edge red, and every edge blue. *)
Definition by_orientation (e : Edge) : Color :=
  match snd e with HORIZONTAL => BLUE | VERTICAL => RED end.

Definition all_blue (e : Edge) : Color := BLUE.

(** The 2x2 game of [main] under the first colouring, and the one-square
    game under the second. *)
Definition two_by_two_game : Game := reset by_orientation (blank two_by_two).
Definition simple_game : Game := reset all_blue (blank simple_square).

(** A finished one-square game, and a 2x2 game after Left has removed
    the edge between [(0, 0)] and [(1, 0)]. *)
Definition finished_game : Game :=
  fst (make_move simple_game ((0, 0), HORIZONTAL)).

Definition midgame : Game :=
  fst (make_move two_by_two_game ((0, 0), HORIZONTAL)).

(** ** Invariants of play *)

(** The colour word written in a history entry for a player's edge. *)
Definition color_word (p : Player) : string :=
  match p with LEFT_PLAYER => "Blue" | RIGHT_PLAYER => "Red" end.

(** The player of the move with index [i] (from 0): Left starts and the
    players alternate. *)
Definition turn_player (i : nat) : Player :=
  if Nat.even i then LEFT_PLAYER else RIGHT_PLAYER.

(** The squares still active are the squares of the shape whose four
    edges all have their flag set. *)
Definition intact_squares_active (g : Game) : Prop :=
  active_squares_coords g ⊆ all_squares_coords g ∧
  ∀ sq, sq ∈ all_squares_coords g →
        (sq ∈ active_squares_coords g ↔
         ∀ e, e ∈ get_edges_of_square sq → edge_exists g e = true).

(** The edges named in the history are the edges of the dictionary whose
    flag is cleared, each named once. *)
Definition history_names_removed_edges (g : Game) : Prop :=
  NoDup (map MoveData.edge_removed (move_history g)) ∧
  ∀ e, e ∈ map MoveData.edge_removed (move_history g) ↔
       is_Some (edges g !! e) ∧ edge_exists g e = false.

(** The destroyed squares of the entries and the active squares share
    out the shape; each entry destroys one or two squares. *)
Definition history_accounts_for_squares (g : Game) : Prop :=
  active_squares_coords g ⊆ all_squares_coords g ∧
  (∀ sq, sq ∈ all_squares_coords g ∖ active_squares_coords g ↔
         ∃ r, r ∈ move_history g ∧ sq ∈ MoveData.squares_destroyed r) ∧
  (size (active_squares_coords g)
   + sum_list_with (λ r, size (MoveData.squares_destroyed r))
       (move_history g)
   = size (all_squares_coords g))%nat ∧
  (∀ r, r ∈ move_history g →
        (1 ≤ size (MoveData.squares_destroyed r) ≤ 2)%nat).

(** The entries carry the turn number, player and colour word of
    alternating play, and the current player of an unfinished game is
    the one to play next. *)
Definition turns_alternate (g : Game) : Prop :=
  (∀ i r, move_history g !! i = Some r →
          MoveData.turn r = S i ∧
          MoveData.player r = turn_player i ∧
          MoveData.edge_color r = color_word (turn_player i)) ∧
  (winner g = None →
   current_player g = turn_player (length (move_history g))).

(** How a winner, the emptiness of the board and the game-ending entry go
    together. *)
Definition winner_matches_board (g : Game) : Prop :=
  (all_squares_coords g ≠ ∅ →
   (winner g = None ↔ active_squares_coords g ≠ ∅)) ∧
  (∀ w, winner g = Some w →
        current_player g = w ∧
        ∃ r, last (move_history g) = Some r ∧
             MoveData.game_over_after r = true ∧
             MoveData.winner r = Some w ∧
             MoveData.player r = w) ∧
  (winner g = None →
   ∀ r, r ∈ move_history g →
        MoveData.game_over_after r = false ∧ MoveData.winner r = None).

(** [last_move_destructions] counts the squares of the last history
    entry, and is 0 before the first move. *)
Definition counter_matches_last_entry (g : Game) : Prop :=
  last_move_destructions g
    = from_option (λ r, size (MoveData.squares_destroyed r)) 0%nat
        (last (move_history g)).

(** ** Screen coordinates *)

Definition SQUARE_SIZE : Z := 60.
Definition INFO_PANEL_HEIGHT : Z := 50.

(** [world_to_screen]: the top-left pixel of the square [(r, c)]. *)
Definition world_to_screen (r c : Z) : Z * Z :=
  let x := c * SQUARE_SIZE in
  let y := r * SQUARE_SIZE + INFO_PANEL_HEIGHT in
  (x, y).

(** [screen_to_world]: the square under a pixel, or [(None, None)] for a
    pixel of the info panel.  Python's [//] rounds down, as [Z.div] does
    for the positive [SQUARE_SIZE]. *)
Definition screen_to_world (x y : Z) : option Z * option Z :=
  if decide (y < INFO_PANEL_HEIGHT) then (None, None)
  else
    let c := x `div` SQUARE_SIZE in
    let r := (y - INFO_PANEL_HEIGHT) `div` SQUARE_SIZE in
    (Some r, Some c).

(** ** The lines drawn by [draw_board] *)

Abbreviation RGB := (Z * Z * Z)%type.

(** The RGB constants behind the two edge colours, and the highlight. *)
Definition rgb (c : Color) : RGB :=
  match c with
  | BLUE => (0, 0, 255)
  | RED => (255, 0, 0)
  end.

Definition GREEN : RGB := (0, 128, 0).
Definition HIGHLIGHT_COLOR : RGB := GREEN.
Definition HIGHLIGHT_THICKNESS_INCREASE : Z := 4.
Definition EDGE_THICKNESS : Z := 5.

(** One call [pygame.draw.line(screen, color, start, end, width)]. *)
Record LineCall := mkLine {
  line_color : RGB;
  start_pos : Z * Z;
  end_pos : Z * Z;
  line_width : Z
}.

(** [min(gen, default=d)] and [max(gen, default=d)] over the values the
    generator yields. *)
Definition min_default (d : Z) (l : list Z) : Z :=
  match l with
  | [] => d
  | x :: l' => foldl Z.min x l'
  end.

Definition max_default (d : Z) (l : list Z) : Z :=
  match l with
  | [] => d
  | x :: l' => foldl Z.max x l'
  end.

(** The body of one test [if edge in game.edges and
    game.edges[edge]['exists']] of the drawing loop, given the end
    points computed for the edge: the highlight line for a legal move,
    then the line in the colour of the edge. *)
Definition draw_edge (game : Game) (legal_moves : gset Edge) (edge : Edge)
  (p1 p2 : Z * Z) : list LineCall :=
  match edges game !! edge with
  | Some info =>
      if exists_ info then
        let color := rgb (color info) in
        (if decide (edge ∈ legal_moves)
         then [mkLine HIGHLIGHT_COLOR p1 p2
                      (EDGE_THICKNESS + HIGHLIGHT_THICKNESS_INCREASE)]
         else [])
        ++ [mkLine color p1 p2 EDGE_THICKNESS]
      else []
  | None => []
  end.

(** The body of the inner loop for the cell [(r, c)]: the horizontal
    edge below it, then the vertical edge on its right. *)
Definition draw_cell (game : Game) (legal_moves : gset Edge) (r c : Z)
  : list LineCall :=
  (let edge_h := ((r, c), HORIZONTAL) in
   let '(x1, y1) := world_to_screen (r + 1) c in
   let x2 := x1 + SQUARE_SIZE in
   let y2 := y1 in
   draw_edge game legal_moves edge_h (x1, y1) (x2, y2))
  ++
  (let edge_v := ((r, c), VERTICAL) in
   let '(x1, y1) := world_to_screen r (c + 1) in
   let x2 := x1 in
   let y2 := y1 + SQUARE_SIZE in
   draw_edge game legal_moves edge_v (x1, y1) (x2, y2)).

(** The calls of [pygame.draw.line] that [draw_board] makes, in order.
    They all come from the loop over the bounding box of the shape,
    widened by one cell; nothing is drawn after the early return for an
    empty shape.  [range(a, b)] is [seqZ a (b - a)]. *)
Definition draw_board_lines (game : Game) : list LineCall :=
  if decide (all_squares_coords game = ∅) then []
  else
    let rows := fst <$> elements (all_squares_coords game) in
    let cols := snd <$> elements (all_squares_coords game) in
    let min_r := min_default 0 rows in
    let max_r := max_default 0 rows in
    let min_c := min_default 0 cols in
    let max_c := max_default 0 cols in
    let legal_moves : gset Edge := list_to_set (get_legal_moves game) in
    r ← seqZ (min_r - 1) ((max_r + 2) - (min_r - 1));
    c ← seqZ (min_c - 1) ((max_c + 2) - (min_c - 1));
    draw_cell game legal_moves r c.

(** The segment on which an edge is drawn. *)
Definition edge_segment (e : Edge) : (Z * Z) * (Z * Z) :=
  let '((r, c), o) := e in
  match o with
  | HORIZONTAL =>
      let '(x1, y1) := world_to_screen (r + 1) c in
      ((x1, y1), (x1 + SQUARE_SIZE, y1))
  | VERTICAL =>
      let '(x1, y1) := world_to_screen r (c + 1) in
      ((x1, y1), (x1, y1 + SQUARE_SIZE))
  end.

(** The keys of the dictionary are edges of squares of the shape. *)
Definition keys_around_shape (g : Game) : Prop :=
  ∀ e, is_Some (edges g !! e) →
       ∃ sq, sq ∈ all_squares_coords g ∧ e ∈ get_edges_of_square sq.

(** ** Hit testing *)

Definition EDGE_CLICK_TOLERANCE : Z := 8.

(** [pygame.Rect(left, top, width, height)]. *)
Record Rect := mkRect {
  rect_left : Z;
  rect_top : Z;
  rect_width : Z;
  rect_height : Z
}.

(** [get_edge_rect_and_tuple], for integer pixel coordinates.

    [round_div a b] stands for the Python expression [round(a / b)]: the
    floating-point quotient of two integers, rounded to an integer.  It
    is an argument of the model; what the properties need of it is
    stated where they need it.

    Each [return edge, rect] inside the nested tests is a [Some]; when
    the horizontal test returns nothing the vertical test runs, and
    [(None, None)] is returned at the end. *)
Definition get_edge_rect_and_tuple (round_div : Z → Z → Z)
  (screen_x screen_y : Z) (game : Game) : option Edge * option Rect :=
  let grid_line_y_index :=
    round_div (screen_y - INFO_PANEL_HEIGHT) SQUARE_SIZE in
  let grid_line_y := grid_line_y_index * SQUARE_SIZE + INFO_PANEL_HEIGHT in
  let horizontal : option (Edge * Rect) :=
    if decide (Z.abs (screen_y - grid_line_y) ≤ EDGE_CLICK_TOLERANCE) then
      let r_h := grid_line_y_index - 1 in
      let c_h := screen_x `div` SQUARE_SIZE in
      let '(square_x_start, _) := world_to_screen r_h c_h in
      if decide (square_x_start ≤ screen_x < square_x_start + SQUARE_SIZE)
      then
        let edge_h_tuple := ((r_h, c_h), HORIZONTAL) in
        if edge_exists game edge_h_tuple then
          Some (edge_h_tuple,
                mkRect (c_h * SQUARE_SIZE)
                       (grid_line_y - EDGE_THICKNESS `div` 2)
                       SQUARE_SIZE EDGE_THICKNESS)
        else None
      else None
    else None in
  match horizontal with
  | Some (edge_h_tuple, rect) => (Some edge_h_tuple, Some rect)
  | None =>
      let grid_line_x_index := round_div screen_x SQUARE_SIZE in
      let grid_line_x := grid_line_x_index * SQUARE_SIZE in
      let vertical : option (Edge * Rect) :=
        if decide (Z.abs (screen_x - grid_line_x) ≤ EDGE_CLICK_TOLERANCE) then
          let r_v := (screen_y - INFO_PANEL_HEIGHT) `div` SQUARE_SIZE in
          let c_v := grid_line_x_index - 1 in
          let '(_, square_y_start) := world_to_screen r_v c_v in
          if decide (square_y_start ≤ screen_y < square_y_start + SQUARE_SIZE)
          then
            let edge_v_tuple := ((r_v, c_v), VERTICAL) in
            if edge_exists game edge_v_tuple then
              Some (edge_v_tuple,
                    mkRect (grid_line_x - EDGE_THICKNESS `div` 2)
                           (r_v * SQUARE_SIZE + INFO_PANEL_HEIGHT)
                           EDGE_THICKNESS SQUARE_SIZE)
            else None
          else None
        else None in
      match vertical with
      | Some (edge_v_tuple, rect) => (Some edge_v_tuple, Some rect)
      | None => (None, None)
      end
  end.

(** A pixel is near an edge when it lies along the edge's segment and at
    most [EDGE_CLICK_TOLERANCE] pixels away from its line. *)
Definition near_edge (x y : Z) (e : Edge) : Prop :=
  let '((x1, y1), (x2, y2)) := edge_segment e in
  match snd e with
  | HORIZONTAL => x1 ≤ x < x2 ∧ Z.abs (y - y1) ≤ EDGE_CLICK_TOLERANCE
  | VERTICAL => y1 ≤ y < y2 ∧ Z.abs (x - x1) ≤ EDGE_CLICK_TOLERANCE
  end.

(** The two edges a click can select: the horizontal edge on the grid
    line with the rounded row index, in the column of the pixel, and the
    vertical edge on the grid line with the rounded column index, in the
    row of the pixel. *)
Definition candidate_h (round_div : Z → Z → Z) (x y : Z) : Edge :=
  ((round_div (y - INFO_PANEL_HEIGHT) SQUARE_SIZE - 1, x `div` SQUARE_SIZE),
   HORIZONTAL).

Definition candidate_v (round_div : Z → Z → Z) (x y : Z) : Edge :=
  (((y - INFO_PANEL_HEIGHT) `div` SQUARE_SIZE, round_div x SQUARE_SIZE - 1),
   VERTICAL).

(** What is needed of [round(a / SQUARE_SIZE)]: it is the index of a
    grid line nearest to [a], so at most half a square away. *)
Definition rounds_to_nearest (round_div : Z → Z → Z) : Prop :=
  ∀ a, Z.abs (a - round_div a SQUARE_SIZE * SQUARE_SIZE) ≤ SQUARE_SIZE `div` 2.

(** A rounding to nearest, ties upward, used as a concrete instance. *)
Definition round_half_up_div (a b : Z) : Z := (2 * a + b) `div` (2 * b).

(** Another outcome of the colouring, every edge red, and the one-square
    game under it: Left, who starts, owns no edge. *)
Definition all_red (e : Edge) : Color := RED.

Definition red_square_game : Game := reset all_red (blank simple_square).

(** * Properties *)

(** ** The scenarios of the 2x2 board, evaluated *)

Example two_by_two_has_twelve_edges :
  size (edges two_by_two_game) = 12%nat.
Proof. vm_compute. reflexivity. Qed.

Example two_by_two_double_destruction :
  snd (make_move two_by_two_game ((0, 0), HORIZONTAL))
    = (true, "Destroyed 2 square(s).") ∧
  elements (active_squares_coords midgame) = [(0, 1); (1, 1)] ∧
  current_player midgame = RIGHT_PLAYER.
Proof. vm_compute. repeat split. Qed.

Example l_shape_has_ten_edges (choice : Edge → Color) :
  size (edges (reset choice (blank l_shape_squares))) = 10%nat.
Proof. vm_compute. reflexivity. Qed.

(** ** Auxiliary facts about the loops and the two paths of [make_move] *)

Section Loops.
Implicit Types (self : Game) (e : Edge) (X A : gset Square).

Lemma any_active_spec self X :
  any_active self X = true ↔
  ∃ sq, sq ∈ X ∧ sq ∈ active_squares_coords self.
Proof.
  unfold any_active. rewrite existsb_exists. split.
  - intros (sq & Hin & Hact). exists sq.
    apply list_elem_of_In, elem_of_elements in Hin.
    apply bool_decide_eq_true in Hact. done.
  - intros (sq & Hin & Hact). exists sq. split.
    + by apply list_elem_of_In, elem_of_elements.
    + by apply bool_decide_eq_true.
Qed.

(** The destruction loop removes from the active set the affected
    squares that were active, and collects exactly those. *)
Lemma destroy_loop A X :
  set_fold destroy_square (A, ∅) X = (A ∖ X, X ∩ A).
Proof.
  apply (set_fold_ind_L
           (λ st Y, st = (A ∖ Y, Y ∩ A))).
  - f_equal; set_solver.
  - intros sq Y st Hfresh ->. unfold destroy_square.
    destruct (decide (sq ∈ A ∖ Y)) as [Hin | Hout]; f_equal; set_solver.
Qed.

Lemma shared_squares_in_shape self e :
  get_squares_sharing_edge self e ⊆ all_squares_coords self.
Proof.
  destruct e as [[r c] o]. unfold get_squares_sharing_edge. set_solver.
Qed.

(** An edge has two sides. *)
Lemma shared_squares_at_most_two self e :
  (size (get_squares_sharing_edge self e) ≤ 2)%nat.
Proof.
  destruct e as [[r c] o]. unfold get_squares_sharing_edge.
  etransitivity; [apply subseteq_size, intersection_subseteq_l|].
  destruct o; rewrite size_union_alt, size_singleton.
  all: match goal with
       | |- (1 + size ?Y ≤ 2)%nat =>
           assert (size Y ≤ 1)%nat; [|lia];
           etransitivity;
           [apply subseteq_size, subseteq_difference_l; reflexivity|];
           by rewrite size_singleton
       end.
Qed.
End Loops.

Section MakeMove.
Implicit Types (self : Game) (e : Edge).

Lemma is_valid_move_cases self e :
  is_valid_move self e = true ↔
  winner self = None ∧
  (∃ info, edges self !! e = Some info ∧ exists_ info = true ∧
           color info = player_color (current_player self)) ∧
  any_active self (get_squares_sharing_edge self e) = true.
Proof.
  unfold is_valid_move. split.
  - destruct (winner self); [done|].
    destruct (edges self !! e) as [[col ex]|]; [|done]. simpl.
    destruct ex; [|done]. simpl.
    destruct (current_player self), col; simpl; try done.
    all: destruct (any_active self _); simpl; [|done].
    all: intros _; split; [done|]; split; [|done]; eexists; done.
  - intros (-> & (info & -> & Hex & Hcol) & Hany).
    rewrite Hex, Hcol, Hany. by destruct (current_player self).
Qed.

Lemma valid_move_in_edges self e :
  is_valid_move self e = true → is_Some (edges self !! e).
Proof. intros (_ & (info & -> & _) & _)%is_valid_move_cases. by eexists. Qed.

Lemma valid_move_shares_active self e :
  is_valid_move self e = true →
  ∃ sq, sq ∈ get_squares_sharing_edge self e ∧
        sq ∈ active_squares_coords self.
Proof.
  intros (_ & _ & Hany)%is_valid_move_cases. by apply any_active_spec.
Qed.

(** The failure path of [make_move]. *)
Lemma make_move_invalid self e :
  is_valid_move self e = false →
  make_move self e =
    (self, (false, "Invalid Move: " +:+ failure_reason self e)).
Proof. intros Hv. unfold make_move. by rewrite Hv. Qed.

(** The success path of [make_move], with the loop evaluated. *)
Lemma make_move_valid self e :
  is_valid_move self e = true →
  let D := destroyed_by self e in
  let active' := active_squares_coords self ∖ D in
  let over := bool_decide (active' = ∅) in
  let winner' := if over then Some (current_player self) else winner self in
  fst (make_move self e) =
    mkGame (all_squares_coords self) active'
      (alter (λ info, mkEdgeInfo (color info) false) e (edges self))
      (match winner' with
       | Some _ => current_player self
       | None => if bool_decide (current_player self = LEFT_PLAYER)
                 then RIGHT_PLAYER else LEFT_PLAYER
       end)
      winner' (size D)
      (move_history self ++
         [MoveData.mk (length (move_history self) + 1)%nat
            (current_player self) e
            (if bool_decide
                  (color <$>
                     alter (λ info, mkEdgeInfo (color info) false) e
                       (edges self) !! e = Some BLUE)
             then "Blue" else "Red")
            D (active_squares_coords self) active' over
            (if over then winner' else None)])
  ∧ snd (make_move self e) =
      (true, "Destroyed " +:+ pretty (size D) +:+ " square(s).").
Proof.
  intros Hv D active' over winner'. unfold make_move.
  rewrite Hv, destroy_loop. simpl.
  assert (active_squares_coords self ∖ get_squares_sharing_edge self e
          = active') as -> by (unfold active', D, destroyed_by; set_solver).
  fold (destroyed_by self e). fold D.
  assert (active' ∪ D = active_squares_coords self) as ->.
  { unfold active'. apply set_eq. intros x.
    rewrite elem_of_union, elem_of_difference.
    destruct (decide (x ∈ D)); [|tauto].
    unfold D, destroyed_by in *. set_solver. }
  fold over. split; [|done].
  unfold winner'. by destruct over.
Qed.
End MakeMove.

(** ** Legality *)

(** C1. [is_valid_move] answers [True] exactly when the game has no
    winner, the edge is in the dictionary with its flag set, its colour
    is the one of the current player (Left owns Blue, Right owns Red),
    and one of the squares sharing the edge is active. *)
Theorem is_valid_move_iff (self : Game) (e : Edge) :
  is_valid_move self e = true ↔
  winner self = None ∧
  (∃ info, edges self !! e = Some info ∧ exists_ info = true ∧
           color info = player_color (current_player self)) ∧
  (∃ sq, sq ∈ get_squares_sharing_edge self e ∧
         sq ∈ active_squares_coords self).
Proof. rewrite is_valid_move_cases, any_active_spec. done. Qed.

(** ** The effect of a legal move *)

(** C2. A legal move clears the flag of its edge; the squares it removes
    from the active set are exactly the squares sharing the edge that
    were active; there are at most two of them; the history entry and
    the returned count record them. *)
Theorem make_move_destroys_shared_active (self : Game) (e : Edge) :
  is_valid_move self e = true →
  edge_exists (fst (make_move self e)) e = false ∧
  (∃ info, edges self !! e = Some info ∧
           edges (fst (make_move self e)) !! e
             = Some (mkEdgeInfo (color info) false)) ∧
  active_squares_coords (fst (make_move self e))
    = active_squares_coords self ∖ destroyed_by self e ∧
  active_squares_coords self ∖ active_squares_coords (fst (make_move self e))
    = get_squares_sharing_edge self e ∩ active_squares_coords self ∧
  (size (destroyed_by self e) ≤ 2)%nat ∧
  MoveData.squares_destroyed <$> last (move_history (fst (make_move self e)))
    = Some (destroyed_by self e) ∧
  last_move_destructions (fst (make_move self e))
    = size (destroyed_by self e) ∧
  snd (make_move self e)
    = (true,
       "Destroyed " +:+ pretty (size (destroyed_by self e)) +:+ " square(s).").
Proof.
  intros Hv.
  pose proof (make_move_valid self e Hv) as Hmove. cbv zeta in Hmove.
  destruct Hmove as [-> ->].
  destruct (valid_move_in_edges self e Hv) as [info Hinfo].
  unfold edge_exists. simpl.
  rewrite lookup_alter_eq, Hinfo. simpl.
  rewrite last_snoc. simpl.
  repeat split; try done.
  - by exists info.
  - unfold destroyed_by. clear Hv Hinfo. apply set_eq. intros x.
    rewrite !elem_of_difference, !elem_of_intersection.
    destruct (decide (x ∈ get_squares_sharing_edge self e)); tauto.
  - etransitivity; [|apply (shared_squares_at_most_two self e)].
    apply subseteq_size. unfold destroyed_by. set_solver.
Qed.

Lemma make_move_destroys_shared_active_witness :
  is_valid_move two_by_two_game ((0, 0), HORIZONTAL) = true ∧
  active_squares_coords
    (fst (make_move two_by_two_game ((0, 0), HORIZONTAL)))
    = active_squares_coords two_by_two_game
        ∖ destroyed_by two_by_two_game ((0, 0), HORIZONTAL) ∧
  size (destroyed_by two_by_two_game ((0, 0), HORIZONTAL)) = 2%nat.
Proof.
  assert (is_valid_move two_by_two_game ((0, 0), HORIZONTAL) = true) as Hv
    by (vm_compute; reflexivity).
  split; [exact Hv|].
  split; [|vm_compute; reflexivity].
  exact (proj1 (proj2 (proj2
           (make_move_destroys_shared_active _ _ Hv)))).
Defined.

(** ** Failure leaves the object untouched *)

(** C4. When [is_valid_move] answers [False], [make_move] returns
    [False] and the object it leaves is the object it found: active
    squares, edges, current player, winner and history are unchanged. *)
Theorem make_move_failure_atomic (self : Game) (e : Edge) :
  is_valid_move self e = false →
  fst (make_move self e) = self ∧ fst (snd (make_move self e)) = false.
Proof. intros Hv. by rewrite (make_move_invalid self e Hv). Qed.

Lemma make_move_failure_atomic_witness :
  is_valid_move two_by_two_game ((0, 0), VERTICAL) = false ∧
  fst (make_move two_by_two_game ((0, 0), VERTICAL)) = two_by_two_game ∧
  fst (snd (make_move two_by_two_game ((0, 0), VERTICAL))) = false.
Proof.
  assert (is_valid_move two_by_two_game ((0, 0), VERTICAL) = false) as Hv
    by (vm_compute; reflexivity).
  split; [exact Hv|].
  exact (make_move_failure_atomic _ _ Hv).
Defined.

(** ** Reset *)

Section Reset.
Variable choice : Edge → Color.
Implicit Types (self : Game) (e : Edge).

Lemma add_edge_same_but_edges e g g' :
  same_but_edges g g' → same_but_edges g (add_edge choice e g').
Proof.
  unfold add_edge. destruct (edges g' !! e); [done|].
  case_decide; done.
Qed.

Lemma _initialize_edges_same_but_edges self :
  same_but_edges self (_initialize_edges choice self).
Proof.
  unfold _initialize_edges.
  apply (set_fold_ind_L (λ g' (_ : gset Edge), same_but_edges self g')).
  - done.
  - intros e X g' _ IH. by apply add_edge_same_but_edges.
Qed.

Lemma reset_fields self :
  all_squares_coords (reset choice self) = all_squares_coords self ∧
  active_squares_coords (reset choice self) = all_squares_coords self ∧
  current_player (reset choice self) = LEFT_PLAYER ∧
  winner (reset choice self) = None ∧
  last_move_destructions (reset choice self) = 0%nat ∧
  move_history (reset choice self) = [].
Proof.
  unfold reset.
  exact (_initialize_edges_same_but_edges
           (mkGame (all_squares_coords self) (all_squares_coords self)
                   ∅ LEFT_PLAYER None 0%nat [])).
Qed.
End Reset.

(** ** What a call preserves *)

Section Calls.
Implicit Types (self : Game) (e : Edge) (es : list Edge).

(** The boolean [make_move] returns is the answer of [is_valid_move]. *)
Lemma make_move_ok self e :
  fst (snd (make_move self e)) = is_valid_move self e.
Proof.
  destruct (is_valid_move self e) eqn:Hv.
  - pose proof (make_move_valid self e Hv) as Hmove. cbv zeta in Hmove.
    destruct Hmove as [_ ->]. done.
  - by rewrite (make_move_invalid self e Hv).
Qed.

Lemma make_move_all_squares self e :
  all_squares_coords (fst (make_move self e)) = all_squares_coords self.
Proof.
  destruct (is_valid_move self e) eqn:Hv.
  - pose proof (make_move_valid self e Hv) as Hmove. cbv zeta in Hmove.
    destruct Hmove as [-> _]. done.
  - by rewrite (make_move_invalid self e Hv).
Qed.

Lemma make_move_active self e :
  active_squares_coords (fst (make_move self e))
    ⊆ active_squares_coords self.
Proof.
  destruct (is_valid_move self e) eqn:Hv.
  - pose proof (make_move_valid self e Hv) as Hmove. cbv zeta in Hmove.
    destruct Hmove as [-> _]. simpl. apply subseteq_difference_l. done.
  - by rewrite (make_move_invalid self e Hv).
Qed.

(** The dictionary keeps its keys and colours; a flag can only be
    cleared. *)
Lemma make_move_edges self e e' :
  edges (fst (make_move self e)) !! e' = edges self !! e' ∨
  ∃ info, edges self !! e' = Some info ∧
          edges (fst (make_move self e)) !! e'
            = Some (mkEdgeInfo (color info) false).
Proof.
  destruct (is_valid_move self e) eqn:Hv.
  - pose proof (make_move_valid self e Hv) as Hmove. cbv zeta in Hmove.
    destruct Hmove as [-> _]. simpl.
    destruct (decide (e = e')) as [<-|Hne].
    + rewrite lookup_alter_eq.
      destruct (valid_move_in_edges self e Hv) as [info ->].
      right. by exists info.
    + left. by rewrite lookup_alter_ne.
  - rewrite (make_move_invalid self e Hv). by left.
Qed.

Lemma make_move_edge_exists self e e' :
  edge_exists self e' = false →
  edge_exists (fst (make_move self e)) e' = false.
Proof.
  unfold edge_exists.
  destruct (make_move_edges self e e') as [-> | (info & -> & ->)]; done.
Qed.

Lemma run_all_squares self es :
  all_squares_coords (run self es) = all_squares_coords self.
Proof.
  revert self. induction es as [|e es IH]; intros self; simpl; [done|].
  by rewrite IH, make_move_all_squares.
Qed.

Lemma run_active self es :
  active_squares_coords (run self es) ⊆ active_squares_coords self.
Proof.
  revert self. induction es as [|e es IH]; intros self; simpl; [done|].
  etransitivity; [apply IH|apply make_move_active].
Qed.

Lemma run_edge_exists self es e' :
  edge_exists self e' = false → edge_exists (run self es) e' = false.
Proof.
  revert self. induction es as [|e es IH]; intros self H; simpl; [done|].
  by apply IH, make_move_edge_exists.
Qed.

Lemma run_edge_color self es e' info :
  edges self !! e' = Some info →
  ∃ info', edges (run self es) !! e' = Some info' ∧
           color info' = color info.
Proof.
  revert self info.
  induction es as [|e es IH]; intros self info H; simpl; [by exists info|].
  destruct (make_move_edges self e e') as [Heq | (i & Hi & Heq)].
  - apply IH. by rewrite Heq.
  - rewrite H in Hi. injection Hi as <-.
    destruct (IH _ _ Heq) as (info' & ? & ?). by exists info'.
Qed.

Lemma call_all_squares self k :
  all_squares_coords (call self k) = all_squares_coords self.
Proof.
  destruct k as [e|choice]; simpl.
  - apply make_move_all_squares.
  - apply reset_fields.
Qed.

Lemma call_active_in_shape self k :
  active_squares_coords self ⊆ all_squares_coords self →
  active_squares_coords (call self k) ⊆ all_squares_coords (call self k).
Proof.
  intros H. rewrite call_all_squares. destruct k as [e|choice]; simpl.
  - etransitivity; [apply make_move_active|done].
  - by destruct (reset_fields choice self) as (_ & -> & _).
Qed.

Lemma run_calls_all_squares self ks :
  all_squares_coords (run_calls self ks) = all_squares_coords self.
Proof.
  revert self. unfold run_calls.
  induction ks as [|k ks IH]; intros self; simpl; [done|].
  by rewrite IH, call_all_squares.
Qed.

Lemma run_calls_active_in_shape self ks :
  active_squares_coords self ⊆ all_squares_coords self →
  active_squares_coords (run_calls self ks)
    ⊆ all_squares_coords (run_calls self ks).
Proof.
  revert self. unfold run_calls.
  induction ks as [|k ks IH]; intros self H; simpl; [done|].
  by apply IH, call_active_in_shape.
Qed.
End Calls.

(** ** Monotone destruction *)

(** C7. Take any object reached from a constructed game by moves and
    resets, and apply to it any sequence of [make_move] calls.  The
    active squares stay inside the original shape, they only shrink (a
    square that has left the active set is not in it later), and a
    cleared edge flag stays cleared. *)
Theorem destruction_is_monotone
  (choice : Edge → Color) (squares_coords : gset Square)
  (ks : list Call) (es1 es2 : list Edge) :
  let start := run_calls (reset choice (blank squares_coords)) ks in
  let g1 := run start es1 in
  let g2 := run g1 es2 in
  all_squares_coords g1 = squares_coords ∧
  active_squares_coords g1 ⊆ squares_coords ∧
  active_squares_coords g2 ⊆ active_squares_coords g1 ∧
  (∀ sq, sq ∉ active_squares_coords g1 → sq ∉ active_squares_coords g2) ∧
  (∀ e, edge_exists g1 e = false → edge_exists g2 e = false) ∧
  (∀ e info, edges g1 !! e = Some info →
             ∃ info', edges g2 !! e = Some info' ∧ color info' = color info).
Proof.
  intros start g1 g2.
  assert (all_squares_coords start = squares_coords) as Hshape.
  { unfold start. rewrite run_calls_all_squares.
    by destruct (reset_fields choice (blank squares_coords)) as (-> & _). }
  assert (active_squares_coords start ⊆ squares_coords) as Hstart.
  { rewrite <- Hshape. apply run_calls_active_in_shape.
    by destruct (reset_fields choice (blank squares_coords))
      as (-> & -> & _). }
  pose proof (run_active start es1) as H1.
  pose proof (run_active g1 es2) as H2.
  split; [by unfold g1; rewrite run_all_squares|].
  split; [by etransitivity|].
  split; [done|].
  split; [intros sq Hout Hin; by apply Hout, H2|].
  split.
  - intros e. apply run_edge_exists.
  - intros e info. apply run_edge_color.
Qed.

(** ** Reset restores the initial state *)

(** C9. After [reset], whatever moves and resets came before and
    whether or not a winner was set, the active squares are the whole
    original shape, there is no winner, Left is to move and the history
    is empty; resetting again changes none of this. *)
Theorem reset_restores_initial_state
  (self : Game) (ks : list Call) (choice choice' : Edge → Color) :
  let g := reset choice (run_calls self ks) in
  all_squares_coords g = all_squares_coords self ∧
  active_squares_coords g = all_squares_coords self ∧
  winner g = None ∧
  current_player g = LEFT_PLAYER ∧
  move_history g = [] ∧
  get_state_summary g
    = Summary.mk (size (all_squares_coords self)) LEFT_PLAYER None 0 ∧
  get_state_summary (reset choice' g) = get_state_summary g.
Proof.
  intros g.
  destruct (reset_fields choice (run_calls self ks))
    as (Hall & Hact & Hcur & Hwin & _ & Hhist).
  rewrite run_calls_all_squares in Hall, Hact.
  destruct (reset_fields choice' g)
    as (Hall' & Hact' & Hcur' & Hwin' & _ & Hhist').
  fold g in Hall, Hact, Hcur, Hwin, Hhist.
  unfold get_state_summary.
  rewrite Hact', Hcur', Hwin', Hhist', Hall, Hact, Hcur, Hwin, Hhist.
  done.
Qed.

(** ** Winning *)

Section Winner.
Implicit Types (self : Game) (e : Edge) (es : list Edge).

Lemma winner_blocks_moves self e w :
  winner self = Some w → is_valid_move self e = false.
Proof. intros H. unfold is_valid_move. by rewrite H. Qed.

Lemma successes_cons self e es :
  successes self (e :: es) =
    if is_valid_move self e
    then (self, fst (make_move self e))
           :: successes (fst (make_move self e)) es
    else successes (fst (make_move self e)) es.
Proof.
  simpl. rewrite <- (make_move_ok self e).
  by destruct (make_move self e) as [g' [ok msg]].
Qed.

Lemma run_after_winner self es w :
  winner self = Some w → run self es = self ∧ successes self es = [].
Proof.
  intros H. induction es as [|e es [IHr IHs]]; [done|].
  pose proof (winner_blocks_moves self e w H) as Hv.
  rewrite successes_cons, Hv. simpl.
  by rewrite (make_move_invalid self e Hv).
Qed.

Lemma make_move_finished_means_empty self e :
  finished_means_empty self →
  finished_means_empty (fst (make_move self e)).
Proof.
  intros Hinv. destruct (is_valid_move self e) eqn:Hv.
  - pose proof (make_move_valid self e Hv) as Hmove. cbv zeta in Hmove.
    destruct Hmove as [-> _]. unfold finished_means_empty. simpl.
    apply is_valid_move_cases in Hv as (-> & _).
    case_bool_decide; done.
  - by rewrite (make_move_invalid self e Hv).
Qed.

Lemma reachable_finished_means_empty choice squares_coords ks :
  finished_means_empty
    (run_calls (reset choice (blank squares_coords)) ks).
Proof.
  assert (∀ g, finished_means_empty g →
               finished_means_empty (run_calls g ks)) as Hrun.
  { unfold run_calls. induction ks as [|k ks IH]; intros g Hg; [done|].
    simpl. apply IH. destruct k as [e|choice']; simpl.
    - by apply make_move_finished_means_empty.
    - intros Hw. by destruct (reset_fields choice' g) as (_ & _ & _ & ? & _). }
  apply Hrun. intros Hw.
  by destruct (reset_fields choice (blank squares_coords))
    as (_ & _ & _ & ? & _).
Qed.
End Winner.

(** C3. From any object without a winner, a call of [make_move] sets
    the winner exactly when it succeeds and leaves no active square; the
    winner is then the player who moved and the current player stays
    that player.  From any object with a winner, every call fails and
    leaves the object as it is, so neither the winner nor anything else
    changes along any sequence of calls. *)
Theorem winner_set_by_emptying_move
  (self : Game) (e : Edge) (es : list Edge) (p : Player) :
  (winner self = None →
     (winner (fst (make_move self e)) = Some p ↔
        fst (snd (make_move self e)) = true ∧
        active_squares_coords (fst (make_move self e)) = ∅ ∧
        p = current_player self)) ∧
  (winner self = None → winner (fst (make_move self e)) = Some p →
     current_player (fst (make_move self e)) = p ∧
     current_player (fst (make_move self e)) = current_player self) ∧
  (winner self = Some p →
     fst (snd (make_move self e)) = false ∧
     fst (make_move self e) = self ∧
     run self es = self ∧
     successes self es = [] ∧
     winner (run self es) = Some p).
Proof.
  assert (winner self = None →
          winner (fst (make_move self e)) = Some p →
          fst (snd (make_move self e)) = true ∧
          active_squares_coords (fst (make_move self e)) = ∅ ∧
          p = current_player self ∧
          current_player (fst (make_move self e)) = p) as Hset.
  { intros Hnone. rewrite make_move_ok.
    destruct (is_valid_move self e) eqn:Hv.
    - pose proof (make_move_valid self e Hv) as Hmove. cbv zeta in Hmove.
      destruct Hmove as [-> _]. simpl. rewrite Hnone.
      case_bool_decide as Hempty; [|done].
      intros [= <-]. done.
    - rewrite (make_move_invalid self e Hv). simpl. by rewrite Hnone. }
  split; [|split].
  - intros Hnone. split.
    + intros Hw. by destruct (Hset Hnone Hw) as (? & ? & ? & _).
    + rewrite make_move_ok. intros (Hv & Hempty & ->).
      pose proof (make_move_valid self e Hv) as Hmove. cbv zeta in Hmove.
      destruct Hmove as [Hself' _]. rewrite Hself' in Hempty |- *.
      simpl in *. by rewrite bool_decide_eq_true_2.
  - intros Hnone Hw. destruct (Hset Hnone Hw) as (_ & _ & -> & ?). done.
  - intros Hw. pose proof (winner_blocks_moves self e p Hw) as Hv.
    destruct (run_after_winner self es p Hw) as [Hrun Hsucc].
    rewrite (make_move_invalid self e Hv), Hrun, Hsucc. done.
Qed.

Lemma winner_set_by_emptying_move_witness :
  winner simple_game = None ∧
  winner (fst (make_move simple_game ((0, 0), HORIZONTAL)))
    = Some LEFT_PLAYER ∧
  current_player (fst (make_move simple_game ((0, 0), HORIZONTAL)))
    = LEFT_PLAYER.
Proof.
  assert (winner simple_game = None) as Hnone by (vm_compute; reflexivity).
  assert (winner (fst (make_move simple_game ((0, 0), HORIZONTAL)))
          = Some LEFT_PLAYER) as Hw by (vm_compute; reflexivity).
  split; [exact Hnone|]. split; [exact Hw|].
  exact (proj1 (proj1 (proj2
           (winner_set_by_emptying_move simple_game ((0, 0), HORIZONTAL)
              [] LEFT_PLAYER)) Hnone Hw)).
Defined.

(** ** History *)

Section History.
Implicit Types (self : Game) (e : Edge) (es : list Edge).

Lemma length_expected_from n tr :
  length (expected_from n tr) = length tr.
Proof.
  revert n. induction tr as [|ss tr IH]; intros n; simpl; [done|].
  by rewrite IH.
Qed.

Lemma expected_from_turns n tr :
  map (λ v, fst (fst v)) (expected_from n tr) = seq n (length tr).
Proof.
  revert n. induction tr as [|ss tr IH]; intros n; simpl; [done|].
  by rewrite IH.
Qed.

Lemma make_move_valid_history self e :
  is_valid_move self e = true →
  ∃ r, move_history (fst (make_move self e)) = move_history self ++ [r] ∧
       snapshots r
         = expected_snapshots (S (length (move_history self)))
             (self, fst (make_move self e)).
Proof.
  intros Hv.
  pose proof (make_move_valid self e Hv) as Hmove. cbv zeta in Hmove.
  destruct Hmove as [-> _]. simpl. eexists. split; [done|].
  unfold snapshots, expected_snapshots. simpl.
  by rewrite Nat.add_1_r.
Qed.

(** The entries appended by a sequence of calls, one per successful
    call, and the active squares at its end. *)
Lemma run_history self es :
  ∃ recs,
    move_history (run self es) = move_history self ++ recs ∧
    map snapshots recs
      = expected_from (S (length (move_history self)))
          (successes self es) ∧
    active_squares_coords (run self es)
      = from_option MoveData.active_squares_after
          (active_squares_coords self) (last recs).
Proof.
  revert self. induction es as [|e es IH]; intros self.
  - exists []. simpl. by rewrite app_nil_r.
  - rewrite successes_cons. simpl.
    destruct (IH (fst (make_move self e))) as (recs & Hh & Hs & Ha).
    destruct (is_valid_move self e) eqn:Hv.
    + destruct (make_move_valid_history self e Hv) as (r & Hr & Hsnap).
      exists (r :: recs). rewrite Hh, Hr, <- app_assoc. split; [done|].
      rewrite Hr, length_app, Nat.add_1_r in Hs. simpl in *.
      rewrite Hs, Hsnap. split; [done|].
      rewrite Ha. destruct recs as [|r' recs].
      * simpl. by injection Hsnap.
      * rewrite last_cons_cons.
        destruct (last (r' :: recs)) eqn:Hlast; [done|].
        by apply last_None in Hlast.
    + rewrite (make_move_invalid self e Hv) in *. simpl in *.
      by exists recs.
Qed.
End History.

(** C6. After any sequence of calls on a freshly reset (or constructed)
    game, the history has one entry per successful call; the turn
    numbers are 1, 2, ..., N in order; each entry holds the active
    squares just before and just after its move; and the last entry's
    [active_squares_after] is the current active set. *)
Theorem history_integrity
  (choice : Edge → Color) (self : Game) (es : list Edge) :
  let g0 := reset choice self in
  let g := run g0 es in
  let N := length (successes g0 es) in
  length (move_history g) = N ∧
  map MoveData.turn (move_history g) = seq 1 N ∧
  map snapshots (move_history g) = expected_from 1 (successes g0 es) ∧
  (∀ r, last (move_history g) = Some r →
        MoveData.active_squares_after r = active_squares_coords g).
Proof.
  intros g0 g N.
  destruct (run_history g0 es) as (recs & Hh & Hs & Ha).
  destruct (reset_fields choice self) as (_ & _ & _ & _ & _ & Hnil).
  fold g0 in Hnil. fold g in Hh, Ha. rewrite Hnil in Hh, Hs.
  simpl in Hh, Hs. subst recs.
  assert (map MoveData.turn (move_history g) = seq 1 N) as Hturns.
  { unfold N. rewrite <- (expected_from_turns 1), <- Hs, map_map. done. }
  split; [|split; [done|split; [done|]]].
  - by rewrite <- (length_map MoveData.turn), Hturns, length_seq.
  - intros r Hr. rewrite Ha, Hr. done.
Qed.

(** ** Every move destroys something *)

Section Progress.
Implicit Types (self : Game) (e : Edge) (es : list Edge).

Lemma destroyed_by_active self e :
  destroyed_by self e ⊆ active_squares_coords self.
Proof. unfold destroyed_by. apply intersection_subseteq_r. Qed.

Lemma valid_move_destroys self e :
  is_valid_move self e = true → (1 ≤ size (destroyed_by self e))%nat.
Proof.
  intros (sq & Hsh & Hact)%valid_move_shares_active.
  assert (size (destroyed_by self e) ≠ 0%nat); [|lia].
  apply size_non_empty_iff. intros Hempty.
  apply (not_elem_of_empty (C := gset Square) sq).
  rewrite <- Hempty. unfold destroyed_by. by apply elem_of_intersection.
Qed.

Lemma valid_move_active_size self e :
  is_valid_move self e = true →
  (size (active_squares_coords (fst (make_move self e)))
   + size (destroyed_by self e)
   = size (active_squares_coords self))%nat.
Proof.
  intros Hv.
  pose proof (make_move_valid self e Hv) as Hmove. cbv zeta in Hmove.
  destruct Hmove as [-> _]. simpl.
  rewrite size_difference by apply destroyed_by_active.
  pose proof (subseteq_size _ _ (destroyed_by_active self e)). lia.
Qed.

(** The successful calls of a sequence are at most as many as the
    active squares it starts from. *)
Lemma successes_bounded self es :
  (length (successes self es) ≤ size (active_squares_coords self))%nat.
Proof.
  revert self. induction es as [|e es IH]; intros self.
  - simpl. lia.
  - rewrite successes_cons. specialize (IH (fst (make_move self e))).
    destruct (is_valid_move self e) eqn:Hv.
    + pose proof (valid_move_destroys self e Hv).
      pose proof (valid_move_active_size self e Hv). simpl. lia.
    + etransitivity; [apply IH|].
      apply subseteq_size, make_move_active.
Qed.
End Progress.

(** C10. A successful [make_move] destroys one or two squares, never
    none; hence a sequence of calls succeeds at most as many times as
    there are active squares, and a game on a shape of N squares has at
    most N successful moves and history entries. *)
Theorem successful_move_destroys_a_square
  (self : Game) (e : Edge) (es : list Edge)
  (choice : Edge → Color) (squares_coords : gset Square) :
  (fst (snd (make_move self e)) = true →
     (1 ≤ size (destroyed_by self e) ≤ 2)%nat ∧
     destroyed_by self e ≠ ∅ ∧
     last_move_destructions (fst (make_move self e))
       = size (destroyed_by self e) ∧
     (size (active_squares_coords (fst (make_move self e)))
      < size (active_squares_coords self))%nat) ∧
  (length (successes self es) ≤ size (active_squares_coords self))%nat ∧
  (length (successes (reset choice (blank squares_coords)) es)
   ≤ size squares_coords)%nat ∧
  (length (move_history (run (reset choice (blank squares_coords)) es))
   ≤ size squares_coords)%nat.
Proof.
  assert (length (successes (reset choice (blank squares_coords)) es)
          ≤ size squares_coords)%nat as Hgame.
  { etransitivity; [apply successes_bounded|].
    by destruct (reset_fields choice (blank squares_coords))
      as (_ & -> & _). }
  split; [|split; [apply successes_bounded|split; [done|]]].
  - rewrite make_move_ok. intros Hv.
    pose proof (valid_move_destroys self e Hv) as Hone.
    pose proof (valid_move_active_size self e Hv) as Hsize.
    assert (size (destroyed_by self e) ≤ 2)%nat as Htwo.
    { etransitivity; [|apply (shared_squares_at_most_two self e)].
      apply subseteq_size. unfold destroyed_by.
      apply intersection_subseteq_l. }
    pose proof (make_move_valid self e Hv) as Hmove. cbv zeta in Hmove.
    destruct Hmove as [Hself' _].
    split; [lia|]. split; [|split; [by rewrite Hself'|lia]].
    intros Hempty. rewrite Hempty, size_empty in Hone. lia.
  - destruct (run_history (reset choice (blank squares_coords)) es)
      as (recs & Hh & Hs & _).
    rewrite Hh.
    destruct (reset_fields choice (blank squares_coords))
      as (_ & _ & _ & _ & _ & ->).
    simpl. rewrite <- (length_map snapshots), Hs, length_expected_from.
    done.
Qed.

Lemma successful_move_destroys_a_square_witness :
  fst (snd (make_move two_by_two_game ((0, 0), HORIZONTAL))) = true ∧
  (1 ≤ size (destroyed_by two_by_two_game ((0%Z, 0%Z), HORIZONTAL)) ≤ 2)%nat.
Proof.
  assert (fst (snd (make_move two_by_two_game ((0, 0), HORIZONTAL))) = true)
    as Hok by (vm_compute; reflexivity).
  split; [exact Hok|].
  exact (proj1 (proj1 (successful_move_destroys_a_square
                         two_by_two_game ((0, 0), HORIZONTAL) []
                         all_blue simple_square) Hok)).
Defined.

(** ** The one-square game *)

Section SimpleSquare.
Variable choice : Edge → Color.

(** The dictionary built for the shape [{(0, 0)}]: the four sides of
    the square, each with the colour drawn for it. *)
Lemma simple_square_edges :
  edges (reset choice (blank simple_square)) =
    <[ ((0, 0), HORIZONTAL) := mkEdgeInfo (choice ((0, 0), HORIZONTAL)) true ]>
    (<[ ((0, 0), VERTICAL) := mkEdgeInfo (choice ((0, 0), VERTICAL)) true ]>
    (<[ ((-1, 0), HORIZONTAL) := mkEdgeInfo (choice ((-1, 0), HORIZONTAL)) true ]>
    (<[ ((0, -1), VERTICAL) := mkEdgeInfo (choice ((0, -1), VERTICAL)) true ]>
     ∅))).
Proof. vm_compute. reflexivity. Qed.
End SimpleSquare.

(** C8. For the shape [{(0, 0)}] construction succeeds and builds
    exactly four edges, the four sides of the square, each with its flag
    set and each sharing the square [(0, 0)] only.  A successful
    [make_move], on whichever edge, destroys that square, makes the
    mover (Left) the winner at once and leaves a finished game of one
    move. *)
Theorem single_square_game (choice : Edge → Color) (e : Edge) :
  ∃ g, init choice simple_square = Some g ∧
    size (edges g) = 4%nat ∧
    dom (edges g) = get_edges_of_square (0, 0) ∧
    (∀ e', e' ∈ dom (edges g) →
           get_squares_sharing_edge g e' = {[ (0, 0) ]} ∧
           edge_exists g e' = true) ∧
    (fst (snd (make_move g e)) = true →
       e ∈ dom (edges g) ∧
       destroyed_by g e = {[ (0, 0) ]} ∧
       active_squares_coords (fst (make_move g e)) = ∅ ∧
       winner (fst (make_move g e)) = Some (current_player g) ∧
       get_state_summary (fst (make_move g e))
         = Summary.mk 0 LEFT_PLAYER (Some LEFT_PLAYER) 1).
Proof.
  exists (reset choice (blank simple_square)).
  set (g := reset choice (blank simple_square)).
  assert (dom (edges g) = get_edges_of_square (0, 0)) as Hdom.
  { unfold g. rewrite simple_square_edges. vm_compute. reflexivity. }
  destruct (reset_fields choice (blank simple_square))
    as (Hall & Hact & Hcur & Hwin & _ & Hhist).
  fold g in Hall, Hact, Hcur, Hwin, Hhist. simpl in Hall, Hact.
  split; [|split; [|split; [done|split]]].
  - unfold init. case_decide as Hempty; [|done].
    exfalso. revert Hempty. apply non_empty_singleton_L.
  - unfold g. rewrite simple_square_edges. vm_compute. reflexivity.
  - intros e'. rewrite Hdom. unfold get_edges_of_square.
    rewrite !elem_of_union, !elem_of_singleton.
    unfold edge_exists, g. rewrite simple_square_edges.
    unfold get_squares_sharing_edge.
    destruct (reset_fields choice (blank simple_square)) as (-> & _).
    intros [[[-> | ->] | ->] | ->]; split; vm_compute; reflexivity.
  - rewrite make_move_ok. intros Hv.
    assert (destroyed_by g e = {[ (0, 0) ]}) as HD.
    { pose proof (destroyed_by_active g e) as Hsub. rewrite Hact in Hsub.
      destruct (valid_move_shares_active g e Hv) as (sq & Hsh & Hsq).
      assert (sq ∈ destroyed_by g e) as Hin
        by (unfold destroyed_by; by apply elem_of_intersection).
      unfold simple_square in *. apply set_eq. intros x.
      rewrite elem_of_singleton. split.
      - intros Hx. apply Hsub in Hx. by apply elem_of_singleton in Hx.
      - intros ->. apply Hsub in Hin as Hsq0.
        apply elem_of_singleton in Hsq0. by subst sq. }
    split; [by apply elem_of_dom, valid_move_in_edges|].
    split; [done|].
    pose proof (make_move_valid g e Hv) as Hmove. cbv zeta in Hmove.
    destruct Hmove as [-> _]. unfold get_state_summary. simpl.
    rewrite HD, Hact, Hcur, Hhist. unfold simple_square.
    rewrite difference_diag_L, bool_decide_eq_true_2 by done.
    rewrite size_empty. done.
Qed.

Lemma single_square_game_witness :
  fst (snd (make_move simple_game ((0, 0), HORIZONTAL))) = true ∧
  active_squares_coords (fst (make_move simple_game ((0, 0), HORIZONTAL)))
    = ∅ ∧
  winner (fst (make_move simple_game ((0, 0), HORIZONTAL)))
    = Some LEFT_PLAYER.
Proof.
  assert (fst (snd (make_move simple_game ((0, 0), HORIZONTAL))) = true)
    as Hok by (vm_compute; reflexivity).
  split; [exact Hok|].
  destruct (single_square_game all_blue ((0, 0), HORIZONTAL))
    as (g & Hinit & _ & _ & _ & Hmove).
  unfold init in Hinit. case_decide; [done|].
  injection Hinit as <-.
  destruct (Hmove Hok) as (_ & _ & Hempty & Hw & _).
  split; [exact Hempty|exact Hw].
Defined.

(** ** The reason reported on failure *)

Section Reasons.
Implicit Types (self : Game) (e : Edge).

Lemma failure_reason_cases self e :
  (edge_exists self e = false →
     failure_reason self e = "Edge does not exist or already removed") ∧
  (∀ info, edges self !! e = Some info → exists_ info = true →
     (color info ≠ player_color (current_player self) →
        failure_reason self e
          = incorrect_color_reason (current_player self) (color info)) ∧
     (color info = player_color (current_player self) →
        any_active self (get_squares_sharing_edge self e) = false →
        failure_reason self e = "Edge does not border any active squares") ∧
     (color info = player_color (current_player self) →
        any_active self (get_squares_sharing_edge self e) = true →
        failure_reason self e = "Unknown reason")).
Proof.
  unfold failure_reason, edge_exists. split.
  - destruct (edges self !! e) as [[col ex]|]; [|done].
    simpl. by intros ->.
  - intros [col ex] -> Hex. simpl in *. subst ex. simpl.
    assert ((if bool_decide (current_player self = LEFT_PLAYER)
             then BLUE else RED) = player_color (current_player self))
      as -> by (by destruct (current_player self)).
    repeat split.
    + intros Hne. by rewrite bool_decide_eq_true_2.
    + intros Heq Hany. rewrite bool_decide_eq_false_2 by (by intros ?).
      by rewrite Hany.
    + intros Heq Hany. rewrite bool_decide_eq_false_2 by (by intros ?).
      by rewrite Hany.
Qed.

Lemma reasons_distinct (p : Player) (c : Color) :
  "Edge does not exist or already removed" ≠ incorrect_color_reason p c ∧
  "Edge does not exist or already removed"
    ≠ "Edge does not border any active squares" ∧
  incorrect_color_reason p c ≠ "Edge does not border any active squares" ∧
  "Unknown reason" ≠ "Edge does not exist or already removed" ∧
  "Unknown reason" ≠ incorrect_color_reason p c ∧
  "Unknown reason" ≠ "Edge does not border any active squares".
Proof. destruct p, c; vm_compute; repeat split; discriminate. Qed.
End Reasons.

(** C5, as the code has it.  A failed [make_move] returns [False] with
    the message ["Invalid Move: "] followed by a reason, chosen by the
    first test that applies: the edge is unknown or its flag is cleared;
    its colour is not the current player's; it shares no active square;
    otherwise ["Unknown reason"].  The reasons are different strings.
    No reason says that the game is over: with a winner set, the edge
    alone decides among the same reasons, and in every object reached
    from a constructed game by moves and resets the reason is then one
    of the first three. *)
Theorem failure_reason_reported (self : Game) (e : Edge) :
  is_valid_move self e = false →
  make_move self e
    = (self, (false, "Invalid Move: " +:+ failure_reason self e)) ∧
  (edge_exists self e = false →
     failure_reason self e = "Edge does not exist or already removed") ∧
  (∀ info, edges self !! e = Some info → exists_ info = true →
     (color info ≠ player_color (current_player self) →
        failure_reason self e
          = incorrect_color_reason (current_player self) (color info)) ∧
     (color info = player_color (current_player self) →
        (∀ sq, sq ∈ get_squares_sharing_edge self e →
               sq ∉ active_squares_coords self) →
        failure_reason self e = "Edge does not border any active squares") ∧
     (color info = player_color (current_player self) →
        (∃ sq, sq ∈ get_squares_sharing_edge self e ∧
               sq ∈ active_squares_coords self) →
        winner self ≠ None ∧ failure_reason self e = "Unknown reason")) ∧
  (∀ p c,
     "Edge does not exist or already removed" ≠ incorrect_color_reason p c ∧
     "Edge does not exist or already removed"
       ≠ "Edge does not border any active squares" ∧
     incorrect_color_reason p c ≠ "Edge does not border any active squares" ∧
     "Unknown reason" ≠ "Edge does not exist or already removed" ∧
     "Unknown reason" ≠ incorrect_color_reason p c ∧
     "Unknown reason" ≠ "Edge does not border any active squares") ∧
  (∀ choice squares_coords ks,
     self = run_calls (reset choice (blank squares_coords)) ks →
     winner self ≠ None →
     failure_reason self e ≠ "Unknown reason").
Proof.
  intros Hv.
  destruct (failure_reason_cases self e) as [Hgone Hpresent].
  split; [by apply make_move_invalid|].
  split; [done|].
  split; [|split; [apply reasons_distinct|]].
  - intros info Hinfo Hex.
    destruct (Hpresent info Hinfo Hex) as (Hcol & Hnone & Hunknown).
    split; [done|]. split.
    + intros Heq Hno. apply Hnone; [done|].
      destruct (any_active self _) eqn:Hany; [|done].
      apply any_active_spec in Hany as (sq & Hsh & Hact).
      by destruct (Hno sq Hsh).
    + intros Heq Hsome. split.
      * intros Hnowin. rewrite (proj2 (is_valid_move_cases self e)) in Hv;
          [done|].
        split; [done|]. split; [by exists info|by apply any_active_spec].
      * apply Hunknown; [done|]. by apply any_active_spec.
  - intros choice squares_coords ks -> Hwin.
    pose proof (reachable_finished_means_empty choice squares_coords ks Hwin)
      as Hempty.
    set (g := run_calls (reset choice (blank squares_coords)) ks) in *.
    assert (any_active g (get_squares_sharing_edge g e) = false) as Hany.
    { destruct (any_active g _) eqn:Hany; [|done].
      apply any_active_spec in Hany as (sq & _ & Hact).
      rewrite Hempty in Hact. by apply not_elem_of_empty in Hact. }
    destruct (edge_exists g e) eqn:Hex.
    + unfold edge_exists in Hex.
      destruct (edges g !! e) as [info|] eqn:Hinfo; [|done].
      destruct (Hpresent info eq_refl Hex) as (Hcol & Hnone & _).
      destruct (decide (color info = player_color (current_player g)))
        as [Heq|Hne].
      * rewrite (Hnone Heq Hany). done.
      * rewrite (Hcol Hne).
        intros Heq. symmetry in Heq. revert Heq.
        apply (reasons_distinct (current_player g) (color info)).
    + rewrite (Hgone eq_refl). done.
Qed.

Lemma failure_reason_reported_witness :
  is_valid_move midgame ((0, 0), HORIZONTAL) = false ∧
  make_move midgame ((0, 0), HORIZONTAL)
    = (midgame,
       (false,
        "Invalid Move: " +:+ failure_reason midgame ((0, 0), HORIZONTAL))).
Proof.
  assert (is_valid_move midgame ((0, 0), HORIZONTAL) = false) as Hv
    by (vm_compute; reflexivity).
  split; [exact Hv|].
  exact (proj1 (failure_reason_reported midgame ((0, 0), HORIZONTAL) Hv)).
Defined.

(** C5 as stated fails: after the one-square game has ended, a call on
    the still existing right edge of the square is reported with the
    reason of an edge that shares no active square, the very message a
    2x2 game in progress gives for such an edge. *)
Lemma game_over_reason_not_distinct :
  winner finished_game = Some LEFT_PLAYER ∧
  edge_exists finished_game ((0, 0), VERTICAL) = true ∧
  snd (make_move finished_game ((0, 0), VERTICAL))
    = (false, "Invalid Move: Edge does not border any active squares") ∧
  winner midgame = None ∧
  snd (make_move midgame ((0, -1), VERTICAL))
    = snd (make_move finished_game ((0, 0), VERTICAL)).
Proof. vm_compute. repeat split. Qed.

(** * Further properties of the engine *)

(** ** Squares and their edges *)

Section Geometry.
Implicit Types (self : Game) (e : Edge) (sq : Square).

Lemma elem_of_get_edges_of_square e sq :
  e ∈ get_edges_of_square sq ↔
  e = ((fst sq - 1, snd sq), HORIZONTAL) ∨ e = (sq, HORIZONTAL) ∨
  e = ((fst sq, snd sq - 1), VERTICAL) ∨ e = (sq, VERTICAL).
Proof.
  destruct sq as [r c]. unfold get_edges_of_square. simpl.
  rewrite !elem_of_union, !elem_of_singleton. tauto.
Qed.

Lemma elem_of_get_squares_sharing_edge self e sq :
  sq ∈ get_squares_sharing_edge self e ↔
  sq ∈ all_squares_coords self ∧ e ∈ get_edges_of_square sq.
Proof.
  rewrite elem_of_get_edges_of_square.
  destruct e as [[r c] o], sq as [r' c']. unfold get_squares_sharing_edge.
  simpl. destruct o.
  all: rewrite elem_of_intersection, elem_of_union, !elem_of_singleton.
  all: split.
  all: try (intros [[Heq | Heq] Hin]; injection Heq as -> ->;
            (split; [done|]); auto;
            first [ left; do 3 f_equal; lia
                  | right; right; left; do 3 f_equal; lia ]).
  all: intros [Hin Hcases]; (split; [|done]).
  all: destruct Hcases as [Heq | [Heq | [Heq | Heq]]]; try discriminate.
  all: injection Heq as -> ->; first [ by left | right; f_equal; lia ].
Qed.
End Geometry.

(** ** The dictionary built by [_initialize_edges] *)

(** The first loop collects the edges of the squares it has visited. *)
Lemma potential_edges_spec (X : gset Square) (e : Edge) :
  e ∈ set_fold add_potential_edges (∅ : gset Edge) X ↔
  ∃ sq, sq ∈ X ∧ e ∈ get_edges_of_square sq.
Proof.
  revert e.
  apply (set_fold_ind_L
           (λ (acc : gset Edge) (Y : gset Square),
              ∀ e, e ∈ acc ↔ ∃ sq, sq ∈ Y ∧ e ∈ get_edges_of_square sq)).
  - intros e. split; [by intros ?%not_elem_of_empty|].
    by intros (sq & ?%not_elem_of_empty & _).
  - intros sq Y acc Hfresh IH e.
    assert (e ∈ add_potential_edges sq acc ↔
            e ∈ acc ∨ e ∈ get_edges_of_square sq) as ->.
    { destruct sq as [r c].
      unfold add_potential_edges, get_edges_of_square.
      rewrite !elem_of_union, !elem_of_singleton. tauto. }
    rewrite IH. split.
    + intros [(sq' & Hin & He) | He].
      * exists sq'. split; [|done]. apply elem_of_union. by right.
      * exists sq. split; [|done]. apply elem_of_union. left.
        by apply elem_of_singleton.
    + intros (sq' & [->%elem_of_singleton | Hin]%elem_of_union & He).
      * by right.
      * left. by exists sq'.
Qed.

Section InitializeEdges.
Variable choice : Edge → Color.
Implicit Types (self : Game) (e : Edge) (sq : Square).

(** The second loop, started on an empty dictionary, stores the drawn
    colour and a set flag for the visited edges that share a square of
    the shape, and nothing else. *)
Lemma add_edge_loop self (X : gset Edge) e :
  edges self = ∅ →
  edges (set_fold (add_edge choice) self X) !! e =
    if decide (e ∈ X ∧ get_squares_sharing_edge self e ≠ ∅)
    then Some (mkEdgeInfo (choice e) true) else None.
Proof.
  intros Hnil. revert e.
  cut (all_squares_coords (set_fold (add_edge choice) self X)
         = all_squares_coords self ∧
       ∀ e, edges (set_fold (add_edge choice) self X) !! e =
            if decide (e ∈ X ∧ get_squares_sharing_edge self e ≠ ∅)
            then Some (mkEdgeInfo (choice e) true) else None);
    [by intros [_ ?]|].
  pose (P := λ (g : Game) (Y : gset Edge),
          all_squares_coords g = all_squares_coords self ∧
          ∀ e, edges g !! e =
               if decide (e ∈ Y ∧ get_squares_sharing_edge self e ≠ ∅)
               then Some (mkEdgeInfo (choice e) true) else None).
  apply (set_fold_ind_L P); unfold P; clear P.
  - split; [done|]. intros e. rewrite Hnil, lookup_empty.
    case_decide as H; [|done]. by destruct H as [?%not_elem_of_empty _].
  - intros e' Y g Hfresh [Hall IH]. unfold add_edge.
    assert (get_squares_sharing_edge g e' = get_squares_sharing_edge self e')
      as Hsame.
    { destruct e' as [[r c] o]. unfold get_squares_sharing_edge.
      by rewrite Hall. }
    rewrite IH, Hsame, Hall. rewrite decide_False by (by intros [? _]).
    assert (get_squares_sharing_edge self e' ∩ all_squares_coords self
            = get_squares_sharing_edge self e') as ->.
    { apply subseteq_intersection_1_L, shared_squares_in_shape. }
    case_decide as Hborder; simpl.
    + split; [done|]. intros e.
      destruct (decide (e' = e)) as [<-|Hne].
      * rewrite lookup_insert_eq, decide_True; [done|].
        split; [|done]. apply elem_of_union. left. by apply elem_of_singleton.
      * rewrite lookup_insert_ne, IH by done.
        apply decide_ext. rewrite elem_of_union, elem_of_singleton.
        naive_solver.
    + split; [done|]. intros e. rewrite IH.
      apply decide_ext. rewrite elem_of_union, elem_of_singleton.
      split; [naive_solver|].
      intros [[-> | Hin] Hne]; [|done]. by destruct Hborder.
Qed.

(** After [reset], an edge is in the dictionary exactly when it shares
    a square of the shape; it then has the colour drawn for it and its
    flag is set. *)
Lemma reset_edges_lookup self e :
  edges (reset choice self) !! e =
    if decide (get_squares_sharing_edge self e ≠ ∅)
    then Some (mkEdgeInfo (choice e) true) else None.
Proof.
  unfold reset, _initialize_edges.
  set (g0 := mkGame (all_squares_coords self) (all_squares_coords self)
                    ∅ LEFT_PLAYER None 0%nat []).
  rewrite (add_edge_loop g0) by done.
  assert (get_squares_sharing_edge g0 e = get_squares_sharing_edge self e)
    as -> by (by destruct e as [[r c] o]).
  apply decide_ext. split; [by intros [_ ?]|]. intros Hne. split; [|done].
  apply set_choose_L in Hne as (sq & Hsq).
  apply elem_of_get_squares_sharing_edge in Hsq as [Hin He].
  apply potential_edges_spec. by exists sq.
Qed.
End InitializeEdges.

(** X1. After [reset] (hence after construction) the keys of [edges]
    are exactly the edges around the squares of the shape; each one
    holds the colour drawn for it and a set flag, and shares at least
    one square of the shape (no orphan edge). *)
Theorem reset_edges_closure
  (choice : Edge → Color) (self : Game) (e : Edge) :
  (is_Some (edges (reset choice self) !! e) ↔
   ∃ sq, sq ∈ all_squares_coords self ∧ e ∈ get_edges_of_square sq) ∧
  (∀ info, edges (reset choice self) !! e = Some info →
     info = mkEdgeInfo (choice e) true ∧
     get_squares_sharing_edge (reset choice self) e ≠ ∅).
Proof.
  rewrite reset_edges_lookup.
  assert (get_squares_sharing_edge (reset choice self) e
          = get_squares_sharing_edge self e) as ->.
  { destruct e as [[r c] o]. unfold get_squares_sharing_edge.
    by destruct (reset_fields choice self) as (-> & _). }
  split.
  - case_decide as Hne.
    + split; [|by eexists]. intros _.
      apply set_choose_L in Hne as (sq & Hsq).
      apply elem_of_get_squares_sharing_edge in Hsq. by exists sq.
    + split; [by intros [? ?]|]. intros (sq & Hin & He).
      exfalso.
      apply (not_elem_of_empty (C := gset Square) sq). rewrite <- Hne.
      by apply elem_of_get_squares_sharing_edge.
  - intros info. case_decide; [|done]. by intros [= <-].
Qed.

(** X2. A square is among the squares sharing an edge exactly when it
    belongs to the shape and the edge is one of its four edges; a square
    has four different edges and an edge at most two squares. *)
Theorem edges_and_squares_duality (self : Game) (e : Edge) (sq : Square) :
  (sq ∈ get_squares_sharing_edge self e ↔
   sq ∈ all_squares_coords self ∧ e ∈ get_edges_of_square sq) ∧
  size (get_edges_of_square sq) = 4%nat ∧
  (size (get_squares_sharing_edge self e) ≤ 2)%nat.
Proof.
  split; [apply elem_of_get_squares_sharing_edge|].
  split; [|apply shared_squares_at_most_two].
  destruct sq as [r c]. unfold get_edges_of_square.
  rewrite !size_union, !size_singleton; [done|..].
  all: repeat (apply disjoint_union_l; split).
  all: apply disjoint_singleton_l, not_elem_of_singleton.
  all: intros Heq; first [discriminate Heq | injection Heq; lia].
Qed.

(** ** The list of legal moves *)

Section LegalMoves.
Implicit Types (self : Game) (e : Edge) (es : list Edge).

Lemma elem_of_get_legal_moves self e :
  e ∈ get_legal_moves self ↔ is_valid_move self e = true.
Proof.
  unfold get_legal_moves. rewrite list_elem_of_filter. split; [by intros [? _]|].
  intros Hv. split; [done|].
  destruct (valid_move_in_edges self e Hv) as [info Hinfo].
  apply list_elem_of_fmap. exists (e, info). split; [done|].
  by apply elem_of_map_to_list.
Qed.

Lemma no_legal_move_run self es :
  get_legal_moves self = [] → run self es = self ∧ successes self es = [].
Proof.
  intros Hnil.
  assert (∀ e, is_valid_move self e = false) as Hinvalid.
  { intros e. destruct (is_valid_move self e) eqn:Hv; [|done].
    apply elem_of_get_legal_moves in Hv. rewrite Hnil in Hv.
    by apply elem_of_nil in Hv. }
  induction es as [|e es [IHr IHs]]; [done|].
  rewrite successes_cons, Hinvalid. simpl.
  by rewrite (make_move_invalid self e (Hinvalid e)).
Qed.
End LegalMoves.

(** X3. [get_legal_moves] lists, without repetition, exactly the edges
    on which [is_valid_move] answers [True]; each of them is an edge of
    some active square. *)
Theorem get_legal_moves_spec (self : Game) (e : Edge) :
  (e ∈ get_legal_moves self ↔ is_valid_move self e = true) ∧
  NoDup (get_legal_moves self) ∧
  (e ∈ get_legal_moves self →
   ∃ sq, sq ∈ active_squares_coords self ∧ e ∈ get_edges_of_square sq).
Proof.
  split; [apply elem_of_get_legal_moves|]. split.
  - unfold get_legal_moves. apply NoDup_filter, NoDup_fst_map_to_list.
  - intros Hv%elem_of_get_legal_moves.
    destruct (valid_move_shares_active self e Hv) as (sq & Hsh & Hact).
    apply elem_of_get_squares_sharing_edge in Hsh as [_ He]. by exists sq.
Qed.

(** X4. When the current player has no legal move, every [make_move]
    fails and no sequence of calls changes the object: a game without a
    winner can be stuck (Left to move on a board whose edges are all
    red).  A finished game has no legal move either. *)
Theorem no_legal_move_is_stuck (self : Game) (e : Edge) (es : list Edge) :
  get_legal_moves self = [] →
  fst (snd (make_move self e)) = false ∧
  run self es = self ∧
  successes self es = [].
Proof.
  intros Hnil. split; [|by apply no_legal_move_run].
  rewrite make_move_ok. destruct (is_valid_move self e) eqn:Hv; [|done].
  apply elem_of_get_legal_moves in Hv. rewrite Hnil in Hv.
  by apply elem_of_nil in Hv.
Qed.

Lemma no_legal_move_is_stuck_witness :
  winner red_square_game = None ∧
  get_legal_moves red_square_game = [] ∧
  run red_square_game [((0, 0), HORIZONTAL); ((0, 0), VERTICAL)]
    = red_square_game.
Proof.
  assert (get_legal_moves red_square_game = []) as Hnil
    by (vm_compute; reflexivity).
  split; [vm_compute; reflexivity|]. split; [exact Hnil|].
  exact (proj1 (proj2 (no_legal_move_is_stuck red_square_game
                         ((0, 0), HORIZONTAL) _ Hnil))).
Defined.

(** ** Invariants of the objects reached by play *)

Section Reachable.
Implicit Types (self g : Game) (e : Edge) (sq : Square).

(** A property that every [reset] establishes and every [make_move]
    keeps holds of all objects reached from a constructed game. *)
Lemma reachable_ind (P : Game → Prop) :
  (∀ choice self, P (reset choice self)) →
  (∀ g e, P g → is_valid_move g e = true → P (fst (make_move g e))) →
  ∀ choice squares_coords ks,
    P (run_calls (reset choice (blank squares_coords)) ks).
Proof.
  intros Hreset Hmove choice squares_coords ks.
  assert (∀ g, P g → P (run_calls g ks)) as Hrun; [|apply Hrun, Hreset].
  unfold run_calls. induction ks as [|k ks IH]; intros g Hg; [done|].
  simpl. apply IH. destruct k as [e|choice']; simpl; [|apply Hreset].
  destruct (is_valid_move g e) eqn:Hv; [by apply Hmove|].
  by rewrite (make_move_invalid g e Hv).
Qed.

Lemma edge_exists_after_valid_move g e0 e :
  is_valid_move g e0 = true →
  edge_exists (fst (make_move g e0)) e
    = if decide (e = e0) then false else edge_exists g e.
Proof.
  intros Hv.
  pose proof (make_move_valid g e0 Hv) as Hmove. cbv zeta in Hmove.
  destruct Hmove as [-> _]. unfold edge_exists. simpl.
  destruct (valid_move_in_edges g e0 Hv) as [info Hinfo].
  case_decide as Heq.
  - subst e. by rewrite lookup_alter_eq, Hinfo.
  - by rewrite lookup_alter_ne.
Qed.

Lemma active_after_valid_move g e0 sq :
  is_valid_move g e0 = true →
  sq ∈ active_squares_coords (fst (make_move g e0)) ↔
  sq ∈ active_squares_coords g ∧ sq ∉ get_squares_sharing_edge g e0.
Proof.
  intros Hv.
  pose proof (make_move_valid g e0 Hv) as Hmove. cbv zeta in Hmove.
  destruct Hmove as [-> _]. simpl. unfold destroyed_by.
  rewrite elem_of_difference, elem_of_intersection. tauto.
Qed.

Lemma reset_intact_squares_active choice self :
  intact_squares_active (reset choice self).
Proof.
  destruct (reset_fields choice self) as (Hall & Hact & _).
  unfold intact_squares_active. rewrite Hall, Hact. split; [done|].
  intros sq Hsq. split; [|done]. intros _ e He.
  unfold edge_exists. rewrite reset_edges_lookup, decide_True; [done|].
  intros Hempty. apply (not_elem_of_empty (C := gset Square) sq).
  rewrite <- Hempty. by apply elem_of_get_squares_sharing_edge.
Qed.

Lemma make_move_intact_squares_active g e0 :
  intact_squares_active g → is_valid_move g e0 = true →
  intact_squares_active (fst (make_move g e0)).
Proof.
  intros [Hsub Hiff] Hv. unfold intact_squares_active.
  rewrite make_move_all_squares. split.
  - etransitivity; [apply make_move_active|done].
  - intros sq Hsq. rewrite (active_after_valid_move g e0 sq Hv).
    rewrite elem_of_get_squares_sharing_edge, (Hiff sq Hsq). split.
    + intros [Hall Hnot] e He.
      rewrite (edge_exists_after_valid_move g e0 e Hv).
      case_decide as Heq; [|by apply Hall]. subst e. by destruct Hnot.
    + intros Hall. split.
      * intros e He. specialize (Hall e He).
        rewrite (edge_exists_after_valid_move g e0 e Hv) in Hall.
        by case_decide.
      * intros [_ He]. specialize (Hall e0 He).
        rewrite (edge_exists_after_valid_move g e0 e0 Hv) in Hall.
        by rewrite decide_True in Hall.
Qed.
End Reachable.

(** X5. In every object reached from a constructed game by moves and
    resets, a square of the shape is active exactly when its four edges
    all still have their flag set: removing any edge of a square
    destroys it, and nothing else does. *)
Theorem active_iff_four_edges_exist
  (choice : Edge → Color) (squares_coords : gset Square)
  (ks : list Call) (sq : Square) :
  let g := run_calls (reset choice (blank squares_coords)) ks in
  sq ∈ active_squares_coords g ↔
  sq ∈ squares_coords ∧
  ∀ e, e ∈ get_edges_of_square sq → edge_exists g e = true.
Proof.
  intros g.
  destruct (reachable_ind intact_squares_active
              reset_intact_squares_active make_move_intact_squares_active
              choice squares_coords ks) as [Hsub Hiff].
  fold g in Hsub, Hiff.
  assert (all_squares_coords g = squares_coords) as Hall.
  { unfold g. rewrite run_calls_all_squares.
    by destruct (reset_fields choice (blank squares_coords)) as (-> & _). }
  rewrite Hall in Hsub, Hiff. split.
  - intros Hact. split; [by apply Hsub|]. by apply Hiff; [apply Hsub|].
  - intros [Hin Hedges]. by apply Hiff.
Qed.

(** ** The history against the board *)

Section HistoryInvariants.
Implicit Types (self g : Game) (e : Edge) (sq : Square).

(** The entry appended by a legal move. *)
Lemma make_move_valid_record g e :
  is_valid_move g e = true →
  ∃ r, move_history (fst (make_move g e)) = move_history g ++ [r] ∧
       MoveData.turn r = S (length (move_history g)) ∧
       MoveData.player r = current_player g ∧
       MoveData.edge_removed r = e ∧
       MoveData.edge_color r = color_word (current_player g) ∧
       MoveData.squares_destroyed r = destroyed_by g e ∧
       MoveData.active_squares_before r = active_squares_coords g ∧
       MoveData.active_squares_after r
         = active_squares_coords (fst (make_move g e)) ∧
       MoveData.game_over_after r
         = bool_decide (active_squares_coords (fst (make_move g e)) = ∅) ∧
       MoveData.winner r = winner (fst (make_move g e)) ∧
       winner (fst (make_move g e))
         = (if bool_decide (active_squares_coords (fst (make_move g e)) = ∅)
            then Some (current_player g) else None) ∧
       current_player (fst (make_move g e))
         = (if bool_decide (active_squares_coords (fst (make_move g e)) = ∅)
            then current_player g
            else if bool_decide (current_player g = LEFT_PLAYER)
                 then RIGHT_PLAYER else LEFT_PLAYER).
Proof.
  intros Hv.
  pose proof (make_move_valid g e Hv) as Hmove. cbv zeta in Hmove.
  destruct Hmove as [-> _]. simpl.
  apply is_valid_move_cases in Hv as (Hnone & (info & Hinfo & _ & Hcol) & _).
  rewrite Hnone. eexists. split; [done|]. simpl.
  rewrite lookup_alter_eq, Hinfo. simpl. rewrite Hcol, Nat.add_1_r.
  repeat split; try done.
  - by destruct (current_player g).
  - by case_bool_decide.
  - by case_bool_decide.
Qed.

Lemma make_move_keeps_keys g e0 e :
  is_Some (edges (fst (make_move g e0)) !! e) ↔ is_Some (edges g !! e).
Proof.
  destruct (make_move_edges g e0 e) as [-> | (info & -> & ->)]; [done|].
  split; by eexists.
Qed.

Lemma reset_history_names_removed_edges choice self :
  history_names_removed_edges (reset choice self).
Proof.
  destruct (reset_fields choice self) as (_ & _ & _ & _ & _ & Hhist).
  unfold history_names_removed_edges. rewrite Hhist. simpl.
  split; [constructor|]. intros e. split; [by intros ?%elem_of_nil|].
  unfold edge_exists. rewrite reset_edges_lookup. case_decide; intros [[? ?] ?]; done.
Qed.

Lemma make_move_history_names_removed_edges g e0 :
  history_names_removed_edges g → is_valid_move g e0 = true →
  history_names_removed_edges (fst (make_move g e0)).
Proof.
  intros [Hnodup Hiff] Hv. unfold history_names_removed_edges.
  destruct (make_move_valid_record g e0 Hv) as (r & -> & _ & _ & Hr & _).
  rewrite map_app. simpl. rewrite Hr.
  assert (edge_exists g e0 = true) as Hflag.
  { apply is_valid_move_cases in Hv as (_ & (info & Hinfo & Hex & _) & _).
    unfold edge_exists. by rewrite Hinfo. }
  split.
  - apply NoDup_app. split; [done|]. split; [|apply NoDup_singleton].
    intros e He ->%list_elem_of_singleton.
    apply Hiff in He as [_ He]. congruence.
  - intros e. rewrite elem_of_app, list_elem_of_singleton, Hiff.
    rewrite make_move_keeps_keys, (edge_exists_after_valid_move g e0 e Hv).
    case_decide as Heq.
    + subst e. split; [|by right]. intros _. split; [|done].
      by apply valid_move_in_edges.
    + split; [by intros [? | ?]|]. by left.
Qed.

Lemma reset_history_accounts_for_squares choice self :
  history_accounts_for_squares (reset choice self).
Proof.
  destruct (reset_fields choice self) as (Hall & Hact & _ & _ & _ & Hhist).
  unfold history_accounts_for_squares. rewrite Hall, Hact, Hhist. simpl.
  split; [done|]. split; [|split; [lia|by intros r ?%elem_of_nil]].
  intros sq. rewrite difference_diag_L. split.
  - by intros ?%not_elem_of_empty.
  - by intros (r & ?%elem_of_nil & _).
Qed.

Lemma make_move_history_accounts_for_squares g e0 :
  history_accounts_for_squares g → is_valid_move g e0 = true →
  history_accounts_for_squares (fst (make_move g e0)).
Proof.
  intros (Hsub & Hiff & Hsum & Hsizes) Hv.
  unfold history_accounts_for_squares.
  destruct (make_move_valid_record g e0 Hv)
    as (r & -> & _ & _ & _ & _ & Hr & _).
  rewrite make_move_all_squares.
  pose proof (valid_move_active_size g e0 Hv) as Hsize.
  pose proof (valid_move_destroys g e0 Hv) as Hone.
  pose proof (destroyed_by_active g e0) as HD.
  split; [etransitivity; [apply make_move_active|done]|].
  split; [|split].
  - intros sq. rewrite elem_of_difference.
    rewrite (active_after_valid_move g e0 sq Hv). split.
    + intros [Hin Hnot].
      destruct (decide (sq ∈ active_squares_coords g)) as [Hact|Hact].
      * exists r. split; [apply elem_of_app; right; by apply list_elem_of_singleton|].
        rewrite Hr. unfold destroyed_by. apply elem_of_intersection.
        split; [|done].
        destruct (decide (sq ∈ get_squares_sharing_edge g e0)); [done|].
        by destruct Hnot.
      * destruct (proj1 (Hiff sq)) as (r' & Hr' & Hsq).
        { by apply elem_of_difference. }
        exists r'. split; [|done]. apply elem_of_app. by left.
    + intros (r' & [Hr' | ->%list_elem_of_singleton]%elem_of_app & Hsq).
      * assert (sq ∈ all_squares_coords g ∖ active_squares_coords g) as Hgone
          by (apply Hiff; by exists r').
        apply elem_of_difference in Hgone as [Hin Hout].
        split; [done|]. by intros [? _].
      * rewrite Hr in Hsq. unfold destroyed_by in Hsq.
        apply elem_of_intersection in Hsq as [Hsh Hact].
        split; [by apply Hsub|]. by intros [_ ?].
  - rewrite sum_list_with_app. simpl. rewrite Hr. lia.
  - intros r' [Hr' | ->%list_elem_of_singleton]%elem_of_app; [by apply Hsizes|].
    rewrite Hr. split; [done|].
    etransitivity; [|apply (shared_squares_at_most_two g e0)].
    apply subseteq_size. unfold destroyed_by. apply intersection_subseteq_l.
Qed.

Lemma sum_list_with_bounds {A} (f : A → nat) (l : list A) :
  (∀ x, x ∈ l → (1 ≤ f x ≤ 2)%nat) →
  (length l ≤ sum_list_with f l ≤ 2 * length l)%nat.
Proof.
  induction l as [|x l IH]; intros Hl; simpl; [lia|].
  pose proof (Hl x (list_elem_of_here x l)).
  assert (∀ y, y ∈ l → (1 ≤ f y ≤ 2)%nat) as Hl'
    by (intros y Hy; apply Hl; by apply list_elem_of_further).
  specialize (IH Hl'). lia.
Qed.
End HistoryInvariants.

(** X6. In every object reached from a constructed game, the edges
    named in the history are exactly the edges of the dictionary whose
    flag is cleared, and no edge is named twice. *)
Theorem removed_edges_are_the_history
  (choice : Edge → Color) (squares_coords : gset Square)
  (ks : list Call) (e : Edge) :
  let g := run_calls (reset choice (blank squares_coords)) ks in
  NoDup (map MoveData.edge_removed (move_history g)) ∧
  (e ∈ map MoveData.edge_removed (move_history g) ↔
   is_Some (edges g !! e) ∧ edge_exists g e = false).
Proof.
  intros g.
  destruct (reachable_ind history_names_removed_edges
              reset_history_names_removed_edges
              make_move_history_names_removed_edges
              choice squares_coords ks) as [Hnodup Hiff].
  split; [done|apply Hiff].
Qed.

(** X7. In every object reached from a constructed game, a square of
    the shape is inactive exactly when some history entry lists it as
    destroyed; the active squares and the destroyed squares of all
    entries add up to the shape, so the summary satisfies
    active + moves <= N <= active + 2 * moves. *)
Theorem squares_are_accounted_for
  (choice : Edge → Color) (squares_coords : gset Square)
  (ks : list Call) (sq : Square) :
  let g := run_calls (reset choice (blank squares_coords)) ks in
  (sq ∈ squares_coords ∖ active_squares_coords g ↔
   ∃ r, r ∈ move_history g ∧ sq ∈ MoveData.squares_destroyed r) ∧
  (size (active_squares_coords g)
   + sum_list_with (λ r, size (MoveData.squares_destroyed r))
       (move_history g)
   = size squares_coords)%nat ∧
  (Summary.active_squares (get_state_summary g)
   + Summary.total_moves (get_state_summary g) ≤ size squares_coords)%nat ∧
  (size squares_coords
   ≤ Summary.active_squares (get_state_summary g)
     + 2 * Summary.total_moves (get_state_summary g))%nat.
Proof.
  intros g.
  destruct (reachable_ind history_accounts_for_squares
              reset_history_accounts_for_squares
              make_move_history_accounts_for_squares
              choice squares_coords ks) as (_ & Hiff & Hsum & Hsizes).
  fold g in Hiff, Hsum, Hsizes.
  assert (all_squares_coords g = squares_coords) as Hall.
  { unfold g. rewrite run_calls_all_squares.
    by destruct (reset_fields choice (blank squares_coords)) as (-> & _). }
  rewrite Hall in Hiff, Hsum.
  pose proof (sum_list_with_bounds _ _ Hsizes) as Hbounds.
  unfold get_state_summary. simpl.
  split; [apply Hiff|]. split; [done|]. lia.
Qed.

(** ** Turns and the winner *)

Section Turns.
Implicit Types (self g : Game) (e : Edge).

Lemma reset_turns_alternate choice self :
  turns_alternate (reset choice self).
Proof.
  destruct (reset_fields choice self) as (_ & _ & Hcur & _ & _ & Hhist).
  unfold turns_alternate. rewrite Hhist, Hcur. done.
Qed.

Lemma make_move_turns_alternate g e :
  turns_alternate g → is_valid_move g e = true →
  turns_alternate (fst (make_move g e)).
Proof.
  intros [Hrecs Hcur] Hv. unfold turns_alternate.
  destruct (make_move_valid_record g e Hv)
    as (r & -> & Hturn & Hplayer & _ & Hcolor & _ & _ & _ & _ & _ & Hw & Hcp).
  apply is_valid_move_cases in Hv as (Hnone & _).
  specialize (Hcur Hnone). split.
  - intros i r' [[_ Hold] | [-> <-]]%lookup_snoc_Some; [by apply Hrecs|].
    by rewrite Hturn, Hplayer, Hcolor, Hcur.
  - rewrite Hw, Hcp, length_app. simpl.
    case_bool_decide; [done|]. intros _.
    rewrite Nat.add_1_r, Hcur. unfold turn_player.
    rewrite Nat.even_succ, <- Nat.negb_even.
    by destruct (Nat.even (length (move_history g))).
Qed.

Lemma reset_winner_matches_board choice self :
  winner_matches_board (reset choice self).
Proof.
  destruct (reset_fields choice self)
    as (Hall & Hact & _ & Hwin & _ & Hhist).
  unfold winner_matches_board. rewrite Hall, Hact, Hwin, Hhist.
  split; [done|]. split; [done|]. by intros _ r ?%elem_of_nil.
Qed.

Lemma make_move_winner_matches_board g e :
  winner_matches_board g → is_valid_move g e = true →
  winner_matches_board (fst (make_move g e)).
Proof.
  intros (_ & _ & Hrecs) Hv. unfold winner_matches_board.
  destruct (make_move_valid_record g e Hv)
    as (r & -> & _ & Hplayer & _ & _ & _ & _ & _ & Hover & Hrw & Hw & Hcp).
  apply is_valid_move_cases in Hv as (Hnone & _).
  specialize (Hrecs Hnone).
  rewrite Hw, Hcp. rewrite Hw in Hrw.
  case_bool_decide as Hempty.
  - split; [by intros _; split|]. split; [|done].
    intros w [= <-]. split; [done|]. exists r. by rewrite last_snoc.
  - split; [done|]. split; [done|].
    intros _ r' [Hr' | ->%list_elem_of_singleton]%elem_of_app;
      [by apply Hrecs|done].
Qed.
End Turns.

(** X8. In every object reached from a constructed game the players
    alternate, Left first: the entry with index [i] has turn number
    [i + 1], was played by Left when [i] is even and by Right when [i]
    is odd, and records the colour of that player; while there is no
    winner the current player is the one whose turn comes next. *)
Theorem players_alternate
  (choice : Edge → Color) (squares_coords : gset Square)
  (ks : list Call) (i : nat) (r : MoveData.t) :
  let g := run_calls (reset choice (blank squares_coords)) ks in
  (move_history g !! i = Some r →
     MoveData.turn r = S i ∧
     MoveData.player r = turn_player i ∧
     MoveData.edge_color r = color_word (turn_player i)) ∧
  (winner g = None →
   current_player g = turn_player (length (move_history g))).
Proof.
  intros g.
  destruct (reachable_ind turns_alternate
              reset_turns_alternate make_move_turns_alternate
              choice squares_coords ks) as [Hrecs Hcur].
  split; [apply Hrecs|done].
Qed.

(** X9. In every object reached from a successfully constructed game:
    there is a winner exactly when no square is active; the winner is
    the current player and the player of the last history entry, which
    is marked as ending the game and names the winner; while there is no
    winner, no entry is marked as ending the game. *)
Theorem winner_iff_board_empty
  (choice : Edge → Color) (squares_coords : gset Square)
  (g0 : Game) (ks : list Call) :
  init choice squares_coords = Some g0 →
  let g := run_calls g0 ks in
  (winner g = None ↔ active_squares_coords g ≠ ∅) ∧
  (∀ w, winner g = Some w →
        current_player g = w ∧
        ∃ r, last (move_history g) = Some r ∧
             MoveData.game_over_after r = true ∧
             MoveData.winner r = Some w ∧
             MoveData.player r = w) ∧
  (winner g = None →
   ∀ r, r ∈ move_history g →
        MoveData.game_over_after r = false ∧ MoveData.winner r = None).
Proof.
  unfold init. case_decide as Hshape; [done|]. intros [= <-].
  set (g := run_calls (reset choice (blank squares_coords)) ks).
  destruct (reachable_ind winner_matches_board
              reset_winner_matches_board make_move_winner_matches_board
              choice squares_coords ks) as (Hiff & Hw & Hrecs).
  fold g in Hiff, Hw, Hrecs.
  split; [|done]. apply Hiff.
  unfold g. rewrite run_calls_all_squares.
  by destruct (reset_fields choice (blank squares_coords)) as (-> & _).
Qed.

Lemma winner_iff_board_empty_witness :
  init all_blue simple_square = Some simple_game ∧
  (winner (run_calls simple_game [CallMove ((0, 0), HORIZONTAL)]) = None ↔
   active_squares_coords
     (run_calls simple_game [CallMove ((0, 0), HORIZONTAL)]) ≠ ∅).
Proof.
  assert (init all_blue simple_square = Some simple_game) as Hinit
    by (vm_compute; reflexivity).
  split; [exact Hinit|].
  exact (proj1 (winner_iff_board_empty all_blue simple_square simple_game
                  [CallMove ((0, 0), HORIZONTAL)] Hinit)).
Defined.

(** ** Removing an edge twice *)

(** X10. Once [make_move] has succeeded on an edge, every later call on
    the same edge, after any further calls, fails with the reason
    "Edge does not exist or already removed" and changes nothing. *)
Theorem edge_is_removed_once (self : Game) (e : Edge) (es : list Edge) :
  fst (snd (make_move self e)) = true →
  make_move (run (fst (make_move self e)) es) e
    = (run (fst (make_move self e)) es,
       (false, "Invalid Move: Edge does not exist or already removed")).
Proof.
  rewrite make_move_ok. intros Hv.
  set (g := run (fst (make_move self e)) es).
  assert (edge_exists g e = false) as Hgone.
  { apply run_edge_exists.
    rewrite (edge_exists_after_valid_move self e e Hv).
    by rewrite decide_True. }
  assert (is_valid_move g e = false) as Hinvalid.
  { destruct (is_valid_move g e) eqn:Hv'; [|done].
    apply is_valid_move_cases in Hv' as (_ & (info & Hinfo & Hex & _) & _).
    unfold edge_exists in Hgone. rewrite Hinfo in Hgone. congruence. }
  rewrite (make_move_invalid g e Hinvalid).
  by rewrite (proj1 (failure_reason_cases g e) Hgone).
Qed.

Lemma edge_is_removed_once_witness :
  fst (snd (make_move two_by_two_game ((0, 0), HORIZONTAL))) = true ∧
  snd (make_move
         (run (fst (make_move two_by_two_game ((0, 0), HORIZONTAL)))
              [((0, 1), VERTICAL)])
         ((0, 0), HORIZONTAL))
    = (false, "Invalid Move: Edge does not exist or already removed").
Proof.
  assert (fst (snd (make_move two_by_two_game ((0, 0), HORIZONTAL))) = true)
    as Hok by (vm_compute; reflexivity).
  split; [exact Hok|].
  exact (f_equal snd
           (edge_is_removed_once two_by_two_game ((0, 0), HORIZONTAL)
              [((0, 1), VERTICAL)] Hok)).
Defined.

(** ** Construction *)

(** X11. Construction fails exactly for the empty shape.  Otherwise the
    new game has the whole shape active, no winner, no move made, Left
    to move, and its legal moves are exactly the blue edges of the
    dictionary. *)
Theorem init_spec
  (choice : Edge → Color) (squares_coords : gset Square) (e : Edge) :
  (init choice squares_coords = None ↔ squares_coords = ∅) ∧
  (∀ g, init choice squares_coords = Some g →
        all_squares_coords g = squares_coords ∧
        active_squares_coords g = squares_coords ∧
        get_state_summary g
          = Summary.mk (size squares_coords) LEFT_PLAYER None 0 ∧
        (e ∈ get_legal_moves g ↔
         is_Some (edges g !! e) ∧ choice e = BLUE)).
Proof.
  unfold init. case_decide as Hshape.
  - split; [done|]. by intros g.
  - split; [done|]. intros g [= <-].
    destruct (reset_fields choice (blank squares_coords))
      as (Hall & Hact & Hcur & Hwin & _ & Hhist).
    simpl in Hall, Hact. unfold get_state_summary.
    rewrite Hall, Hact, Hcur, Hwin, Hhist.
    split; [done|]. split; [done|]. split; [done|].
    rewrite elem_of_get_legal_moves, is_valid_move_cases.
    rewrite Hwin, Hcur, reset_edges_lookup. simpl.
    case_decide as Hne.
    + split.
      * intros (_ & (info & [= <-] & _ & Hcol) & _). split; [by eexists|done].
      * intros [_ Hcol]. split; [done|]. split; [by eexists|].
        apply any_active_spec. apply set_choose_L in Hne as (sq & Hsq).
        exists sq. split.
        -- apply elem_of_get_squares_sharing_edge.
           apply elem_of_get_squares_sharing_edge in Hsq. by rewrite Hall.
        -- rewrite Hact.
           by apply elem_of_get_squares_sharing_edge in Hsq as [? _].
    + split; [by intros (_ & (info & ? & _) & _)|]. by intros [[? ?] _].
Qed.

(** ** The number of edges *)

Section EdgeCount.
Variable choice : Edge → Color.

Lemma size_union_bound (X Y : gset Edge) :
  (size (X ∪ Y) ≤ size X + size Y)%nat.
Proof.
  rewrite size_union_alt.
  assert (Y ∖ X ⊆ Y) as Hsub by (by apply subseteq_difference_l).
  apply subseteq_size in Hsub. lia.
Qed.

Lemma potential_edges_size (X : gset Square) :
  (size (set_fold add_potential_edges (∅ : gset Edge) X) ≤ 4 * size X)%nat.
Proof.
  apply (set_fold_ind_L
           (λ (acc : gset Edge) (Y : gset Square),
              (size acc ≤ 4 * size Y)%nat)).
  - by rewrite size_empty.
  - intros sq Y acc Hfresh IH.
    rewrite size_union, size_singleton
      by (by apply disjoint_singleton_l).
    destruct sq as [r c]. unfold add_potential_edges.
    set (a := ({[ ((r, c), HORIZONTAL) ]} : gset Edge)).
    set (b := ({[ ((r, c), VERTICAL) ]} : gset Edge)).
    set (c' := ({[ ((r - 1, c), HORIZONTAL) ]} : gset Edge)).
    set (d := ({[ ((r, c - 1), VERTICAL) ]} : gset Edge)).
    pose proof (size_union_bound (acc ∪ a ∪ b ∪ c') d) as H4.
    pose proof (size_union_bound (acc ∪ a ∪ b) c') as H3.
    pose proof (size_union_bound (acc ∪ a) b) as H2.
    pose proof (size_union_bound acc a) as H1.
    unfold a, b, c', d in *. rewrite size_singleton in H1, H2, H3, H4.
    lia.
Qed.

Lemma dom_reset_edges self :
  dom (edges (reset choice self))
    = set_fold add_potential_edges (∅ : gset Edge) (all_squares_coords self).
Proof.
  apply set_eq. intros e.
  rewrite elem_of_dom, potential_edges_spec, reset_edges_lookup.
  case_decide as Hne.
  - split; [|by eexists]. intros _.
    apply set_choose_L in Hne as (sq & Hsq).
    apply elem_of_get_squares_sharing_edge in Hsq. by exists sq.
  - split; [by intros [? ?]|]. intros (sq & Hin & He). exfalso.
    apply (not_elem_of_empty (C := gset Square) sq). rewrite <- Hne.
    by apply elem_of_get_squares_sharing_edge.
Qed.
End EdgeCount.

(** X12. The dictionary built by [reset] has at most four edges per
    square of the shape, and at least four when the shape is not
    empty. *)
Theorem edge_count_bounds (choice : Edge → Color) (self : Game) :
  (size (edges (reset choice self)) ≤ 4 * size (all_squares_coords self))%nat ∧
  (all_squares_coords self ≠ ∅ → (4 ≤ size (edges (reset choice self)))%nat).
Proof.
  rewrite <- (size_dom (D := gset Edge)), dom_reset_edges.
  split; [apply potential_edges_size|].
  intros (sq & Hsq)%set_choose_L.
  assert (size (get_edges_of_square sq) = 4%nat) as <-.
  { destruct sq as [r c]. unfold get_edges_of_square.
    rewrite !size_union, !size_singleton; [done|..].
    all: repeat (apply disjoint_union_l; split).
    all: apply disjoint_singleton_l, not_elem_of_singleton.
    all: intros Heq; first [discriminate Heq | injection Heq; lia]. }
  apply subseteq_size. intros e He.
  apply potential_edges_spec. by exists sq.
Qed.

Lemma edge_count_bounds_witness :
  all_squares_coords (blank two_by_two) ≠ ∅ ∧
  (4 ≤ size (edges (reset by_orientation (blank two_by_two))))%nat.
Proof.
  assert (all_squares_coords (blank two_by_two) ≠ ∅) as Hne.
  { simpl. unfold two_by_two. intros Hempty.
    apply (not_elem_of_empty (C := gset Square) (1, 1)%Z).
    rewrite <- Hempty. apply elem_of_union. right.
    apply elem_of_singleton. reflexivity. }
  split; [exact Hne|].
  exact (proj2 (edge_count_bounds by_orientation (blank two_by_two)) Hne).
Defined.

(** ** Pixels and squares *)

(** X13. [screen_to_world] answers [(None, None)] exactly for the pixels
    above the grid, and answers the square [(r, c)] exactly for the
    pixels of the 60x60 cell whose top-left corner is
    [world_to_screen r c], with [r] non-negative; in particular it
    inverts [world_to_screen] on those rows. *)
Theorem screen_to_world_spec (x y r c : Z) :
  (screen_to_world x y = (None, None) ↔ y < INFO_PANEL_HEIGHT) ∧
  (screen_to_world x y = (Some r, Some c) ↔
   0 ≤ r ∧
   fst (world_to_screen r c) ≤ x < fst (world_to_screen r c) + SQUARE_SIZE ∧
   snd (world_to_screen r c) ≤ y < snd (world_to_screen r c) + SQUARE_SIZE) ∧
  (0 ≤ r →
   screen_to_world (fst (world_to_screen r c)) (snd (world_to_screen r c))
     = (Some r, Some c)) ∧
  (r < 0 →
   screen_to_world (fst (world_to_screen r c)) (snd (world_to_screen r c))
     = (None, None)).
Proof.
  unfold screen_to_world, world_to_screen, SQUARE_SIZE, INFO_PANEL_HEIGHT.
  simpl. split; [|split; [|split]].
  - case_decide; split; done.
  - case_decide as Hy; split.
    + done.
    + intros (? & _ & ?). lia.
    + intros [= <- <-]. Z.div_mod_to_equations. lia.
    + intros (Hr & Hx & Hy'). f_equal; f_equal; Z.div_mod_to_equations; lia.
  - intros Hr. rewrite decide_False by lia.
    f_equal; f_equal; Z.div_mod_to_equations; lia.
  - intros Hr. rewrite decide_True by lia. done.
Qed.

(** ** Drawing the edges *)

Section Drawing.
Implicit Types (g : Game) (e : Edge) (l : LineCall).

Lemma foldl_min_le (a : Z) (xs : list Z) :
  foldl Z.min a xs ≤ a ∧ ∀ x, x ∈ xs → foldl Z.min a xs ≤ x.
Proof.
  revert a. induction xs as [|y xs IH]; intros a; simpl.
  - split; [lia|]. by intros x ?%elem_of_nil.
  - destruct (IH (Z.min a y)) as [Hacc Hall]. split; [lia|].
    intros x [-> | Hx]%elem_of_cons; [lia|by apply Hall].
Qed.

Lemma foldl_max_ge (a : Z) (xs : list Z) :
  a ≤ foldl Z.max a xs ∧ ∀ x, x ∈ xs → x ≤ foldl Z.max a xs.
Proof.
  revert a. induction xs as [|y xs IH]; intros a; simpl.
  - split; [lia|]. by intros x ?%elem_of_nil.
  - destruct (IH (Z.max a y)) as [Hacc Hall]. split; [lia|].
    intros x [-> | Hx]%elem_of_cons; [lia|by apply Hall].
Qed.

Lemma min_default_le (d x : Z) (xs : list Z) :
  x ∈ xs → min_default d xs ≤ x.
Proof.
  destruct xs as [|y xs]; [by intros ?%elem_of_nil|]. simpl.
  destruct (foldl_min_le y xs) as [Hacc Hall].
  intros [-> | Hx]%elem_of_cons; [done|by apply Hall].
Qed.

Lemma max_default_ge (d x : Z) (xs : list Z) :
  x ∈ xs → x ≤ max_default d xs.
Proof.
  destruct xs as [|y xs]; [by intros ?%elem_of_nil|]. simpl.
  destruct (foldl_max_ge y xs) as [Hacc Hall].
  intros [-> | Hx]%elem_of_cons; [done|by apply Hall].
Qed.

(** Different edges are drawn on different segments. *)
Lemma edge_segment_inj e e' : edge_segment e = edge_segment e' → e = e'.
Proof.
  destruct e as [[r c] o], e' as [[r' c'] o'].
  unfold edge_segment, world_to_screen, SQUARE_SIZE, INFO_PANEL_HEIGHT.
  destruct o, o'; simpl; intros [= H1 H2 H3 H4]; try lia.
  all: do 2 f_equal; lia.
Qed.

(** The lines of one edge. *)
Lemma elem_of_draw_edge g (legal : gset Edge) e p1 p2 l :
  l ∈ draw_edge g legal e p1 p2 ↔
  ∃ info, edges g !! e = Some info ∧ exists_ info = true ∧
          (l = mkLine (rgb (color info)) p1 p2 EDGE_THICKNESS ∨
           (e ∈ legal ∧
            l = mkLine HIGHLIGHT_COLOR p1 p2
                       (EDGE_THICKNESS + HIGHLIGHT_THICKNESS_INCREASE))).
Proof.
  unfold draw_edge. destruct (edges g !! e) as [[col ex]|]; simpl.
  - destruct ex.
    + rewrite elem_of_app, list_elem_of_singleton. split.
      * intros [Hhi | ->].
        -- case_decide; [|by apply elem_of_nil in Hhi].
           apply list_elem_of_singleton in Hhi as ->.
           eexists. split; [done|]. split; [done|]. by right.
        -- eexists. split; [done|]. split; [done|]. by left.
      * intros (info & [= <-] & _ & [-> | [Hin ->]]); [by right|].
        left. rewrite decide_True by done. by apply list_elem_of_singleton.
    + split; [by intros ?%elem_of_nil|]. by intros (info & [= <-] & ? & _).
  - split; [by intros ?%elem_of_nil|]. by intros (info & ? & _).
Qed.

Lemma elem_of_draw_cell g (legal : gset Edge) r c l :
  l ∈ draw_cell g legal r c ↔
  ∃ o, l ∈ draw_edge g legal ((r, c), o)
             (fst (edge_segment ((r, c), o)))
             (snd (edge_segment ((r, c), o))).
Proof.
  unfold draw_cell. rewrite elem_of_app. simpl. split.
  - intros [H | H]; [by exists HORIZONTAL|by exists VERTICAL].
  - intros [[] H]; [by left|by right].
Qed.

Lemma elem_of_draw_board_lines g l :
  l ∈ draw_board_lines g →
  ∃ e info, edges g !! e = Some info ∧ exists_ info = true ∧
            (start_pos l, end_pos l) = edge_segment e ∧
            (l = mkLine (rgb (color info)) (fst (edge_segment e))
                        (snd (edge_segment e)) EDGE_THICKNESS ∨
             (is_valid_move g e = true ∧
              l = mkLine HIGHLIGHT_COLOR (fst (edge_segment e))
                         (snd (edge_segment e))
                         (EDGE_THICKNESS + HIGHLIGHT_THICKNESS_INCREASE))).
Proof.
  unfold draw_board_lines. case_decide; [by intros ?%elem_of_nil|].
  intros (r & (c & Hl & _)%list_elem_of_bind & _)%list_elem_of_bind.
  apply elem_of_draw_cell in Hl as (o & Hl).
  apply elem_of_draw_edge in Hl as (info & Hinfo & Hex & Hl).
  exists ((r, c), o), info. split; [done|]. split; [done|].
  split.
  - destruct Hl as [-> | [_ ->]]; symmetry; apply surjective_pairing.
  - destruct Hl as [-> | [Hin ->]]; [by left|]. right. split; [|done].
    by apply elem_of_list_to_set, elem_of_get_legal_moves in Hin.
Qed.

(** The widened bounding box contains every edge of a square of the
    shape. *)
Lemma draw_board_lines_covers g e l :
  keys_around_shape g → is_Some (edges g !! e) →
  l ∈ draw_edge g (list_to_set (get_legal_moves g)) e
        (fst (edge_segment e)) (snd (edge_segment e)) →
  l ∈ draw_board_lines g.
Proof.
  intros Hkeys Hsome Hl. destruct (Hkeys e Hsome) as (sq & Hsq & He).
  unfold draw_board_lines. rewrite decide_False.
  2:{ intros Hempty. rewrite Hempty in Hsq.
      by apply not_elem_of_empty in Hsq. }
  destruct e as [[r c] o], sq as [r' c'].
  assert (fst (r', c') ∈ fst <$> elements (all_squares_coords g)) as Hr.
  { apply list_elem_of_fmap. exists (r', c'). split; [done|].
    by apply elem_of_elements. }
  assert (snd (r', c') ∈ snd <$> elements (all_squares_coords g)) as Hc.
  { apply list_elem_of_fmap. exists (r', c'). split; [done|].
    by apply elem_of_elements. }
  simpl in Hr, Hc.
  pose proof (min_default_le 0 _ _ Hr). pose proof (max_default_ge 0 _ _ Hr).
  pose proof (min_default_le 0 _ _ Hc). pose proof (max_default_ge 0 _ _ Hc).
  assert ((r = r' - 1 ∨ r = r') ∧ (c = c' - 1 ∨ c = c')) as [Hrr Hcc].
  { apply elem_of_get_edges_of_square in He. simpl in He.
    destruct He as [He | [He | [He | He]]]; injection He as -> -> ->; lia. }
  apply list_elem_of_bind. exists r. split; [|apply elem_of_seqZ; lia].
  apply list_elem_of_bind. exists c. split; [|apply elem_of_seqZ; lia].
  apply elem_of_draw_cell. by exists o.
Qed.

Lemma reset_keys_around_shape choice self :
  keys_around_shape (reset choice self).
Proof.
  intros e. rewrite reset_edges_lookup.
  destruct (reset_fields choice self) as (-> & _).
  case_decide as Hne; [|by intros [? ?]]. intros _.
  apply set_choose_L in Hne as (sq & Hsq).
  apply elem_of_get_squares_sharing_edge in Hsq. by exists sq.
Qed.

Lemma make_move_keys_around_shape g e0 :
  keys_around_shape g → is_valid_move g e0 = true →
  keys_around_shape (fst (make_move g e0)).
Proof.
  intros Hkeys _ e. rewrite make_move_keeps_keys, make_move_all_squares.
  apply Hkeys.
Qed.
End Drawing.

(** X14. In every object reached from a constructed game, [draw_board]
    draws each edge whose flag is set as a line of the edge's colour and
    width 5 on the edge's segment; it draws the green highlight of
    width 9 on that segment exactly when the edge is a legal move; and
    it draws no line on the segment of an edge whose flag is cleared or
    that is not in the dictionary. *)
Theorem draw_board_draws_the_edges
  (choice : Edge → Color) (squares_coords : gset Square)
  (ks : list Call) (e : Edge) :
  let g := run_calls (reset choice (blank squares_coords)) ks in
  (∀ info, edges g !! e = Some info → exists_ info = true →
     mkLine (rgb (color info)) (fst (edge_segment e)) (snd (edge_segment e))
            EDGE_THICKNESS ∈ draw_board_lines g) ∧
  (mkLine HIGHLIGHT_COLOR (fst (edge_segment e)) (snd (edge_segment e))
          (EDGE_THICKNESS + HIGHLIGHT_THICKNESS_INCREASE)
     ∈ draw_board_lines g ↔
   is_valid_move g e = true) ∧
  (edge_exists g e = false →
   ∀ l, l ∈ draw_board_lines g → (start_pos l, end_pos l) ≠ edge_segment e).
Proof.
  intros g.
  pose proof (reachable_ind keys_around_shape
                reset_keys_around_shape make_move_keys_around_shape
                choice squares_coords ks) as Hkeys.
  fold g in Hkeys. split; [|split].
  - intros info Hinfo Hex.
    apply (draw_board_lines_covers g e); [done|by eexists|].
    apply elem_of_draw_edge. exists info. split; [done|]. split; [done|].
    by left.
  - split.
    + intros (e' & info & _ & _ & Hseg & Hl)%elem_of_draw_board_lines.
      simpl in Hseg.
      assert (e' = e) as ->.
      { apply edge_segment_inj. rewrite <- Hseg. symmetry.
        apply surjective_pairing. }
      destruct Hl as [[=] | [Hv _]]; done.
    + intros Hv.
      destruct (valid_move_in_edges g e Hv) as [info Hinfo].
      apply (draw_board_lines_covers g e); [done|by eexists|].
      apply elem_of_draw_edge. exists info. split; [done|].
      apply is_valid_move_cases in Hv as Hcases.
      destruct Hcases as (_ & (info' & Hinfo' & Hex & _) & _).
      rewrite Hinfo in Hinfo'. injection Hinfo' as <-.
      split; [done|]. right. split; [|done].
      by apply elem_of_list_to_set, elem_of_get_legal_moves.
  - intros Hgone l (e' & info & Hinfo & Hex & Hseg & _)%elem_of_draw_board_lines.
    rewrite Hseg. intros ->%edge_segment_inj.
    unfold edge_exists in Hgone. rewrite Hinfo in Hgone. congruence.
Qed.

(** ** Clicking on an edge *)

Section HitTest.
Variable round_div : Z → Z → Z.
Implicit Types (g : Game) (e : Edge) (x y : Z).

(** The edge returned: the horizontal candidate when the click is near
    it and its flag is set, else the vertical candidate under the same
    conditions, else nothing.  The two span tests of the source always
    succeed. *)
Lemma get_edge_rect_and_tuple_edge x y g :
  fst (get_edge_rect_and_tuple round_div x y g) =
    if decide (near_edge x y (candidate_h round_div x y))
    then (if edge_exists g (candidate_h round_div x y) then Some (candidate_h round_div x y)
          else if decide (near_edge x y (candidate_v round_div x y))
               then (if edge_exists g (candidate_v round_div x y)
                     then Some (candidate_v round_div x y) else None)
               else None)
    else if decide (near_edge x y (candidate_v round_div x y))
         then (if edge_exists g (candidate_v round_div x y)
               then Some (candidate_v round_div x y) else None)
         else None.
Proof.
  assert (∀ (P Q : Prop) `{Decision P, Decision Q} {A} (a b : A),
            (P ↔ Q) → (if decide P then a else b) = (if decide Q then a else b))
    as Hdec by (intros; by apply decide_ext).
  assert (near_edge x y (candidate_h round_div x y) ↔
          Z.abs (y - (round_div (y - INFO_PANEL_HEIGHT) SQUARE_SIZE
                      * SQUARE_SIZE + INFO_PANEL_HEIGHT))
          ≤ EDGE_CLICK_TOLERANCE) as Hh.
  { unfold near_edge, candidate_h, edge_segment, world_to_screen,
      SQUARE_SIZE, INFO_PANEL_HEIGHT, EDGE_CLICK_TOLERANCE. simpl.
    split; [intros [_ ?]; lia|]. intros ?. split; [|lia].
    Z.div_mod_to_equations. lia. }
  assert (near_edge x y (candidate_v round_div x y) ↔
          Z.abs (x - round_div x SQUARE_SIZE * SQUARE_SIZE)
          ≤ EDGE_CLICK_TOLERANCE) as Hv.
  { unfold near_edge, candidate_v, edge_segment, world_to_screen,
      SQUARE_SIZE, INFO_PANEL_HEIGHT, EDGE_CLICK_TOLERANCE. simpl.
    split; [intros [_ ?]; lia|]. intros ?. split; [|lia].
    Z.div_mod_to_equations. lia. }
  rewrite (decide_ext _ _ _ _ Hh), (decide_ext _ _ _ _ Hv).
  unfold get_edge_rect_and_tuple, world_to_screen. simpl.
  fold (candidate_h round_div x y). fold (candidate_v round_div x y).
  assert (x `div` SQUARE_SIZE * SQUARE_SIZE ≤ x
          < x `div` SQUARE_SIZE * SQUARE_SIZE + SQUARE_SIZE) as Hx
    by (unfold SQUARE_SIZE; Z.div_mod_to_equations; lia).
  assert ((y - INFO_PANEL_HEIGHT) `div` SQUARE_SIZE * SQUARE_SIZE
            + INFO_PANEL_HEIGHT ≤ y
          < (y - INFO_PANEL_HEIGHT) `div` SQUARE_SIZE * SQUARE_SIZE
            + INFO_PANEL_HEIGHT + SQUARE_SIZE) as Hy
    by (unfold SQUARE_SIZE, INFO_PANEL_HEIGHT; Z.div_mod_to_equations; lia).
  rewrite (decide_True (P := _ ≤ x < _)) by done.
  rewrite (decide_True (P := _ ≤ y < _)) by done.
  repeat case_decide; repeat destruct (edge_exists g _); done.
Qed.

(** Under rounding to nearest, an edge near the click is the candidate
    of its orientation. *)
Lemma near_edge_candidate x y e :
  rounds_to_nearest round_div → near_edge x y e →
  e = match snd e with
      | HORIZONTAL => candidate_h round_div x y
      | VERTICAL => candidate_v round_div x y
      end.
Proof.
  intros Hround. destruct e as [[r c] o].
  pose proof (Hround (y - INFO_PANEL_HEIGHT)) as Hry.
  pose proof (Hround x) as Hrx.
  unfold near_edge, candidate_h, candidate_v, edge_segment, world_to_screen,
    SQUARE_SIZE, INFO_PANEL_HEIGHT, EDGE_CLICK_TOLERANCE in *.
  destruct o; simpl; intros [Hspan Hnear]; do 2 f_equal.
  all: try (Z.div_mod_to_equations; lia).
  all: change (60 `div` 2) with 30 in *; lia.
Qed.
End HitTest.

(** The three outcomes of a click. *)
Lemma get_edge_rect_and_tuple_cases
  (round_div : Z → Z → Z) (x y : Z) (g : Game) :
  let eh := candidate_h round_div x y in
  let ev := candidate_v round_div x y in
  let hit := fst (get_edge_rect_and_tuple round_div x y g) in
  (near_edge x y eh ∧ edge_exists g eh = true ∧ hit = Some eh) ∨
  (¬ (near_edge x y eh ∧ edge_exists g eh = true) ∧
   near_edge x y ev ∧ edge_exists g ev = true ∧ hit = Some ev) ∨
  (¬ (near_edge x y eh ∧ edge_exists g eh = true) ∧
   ¬ (near_edge x y ev ∧ edge_exists g ev = true) ∧ hit = None).
Proof.
  intros eh ev hit. unfold hit. rewrite get_edge_rect_and_tuple_edge.
  fold eh ev.
  destruct (edge_exists g eh) eqn:Hh, (edge_exists g ev) eqn:Hv.
  all: repeat match goal with
              | |- context [@decide ?P ?d] => destruct (@decide P d)
              end.
  all: intuition congruence.
Qed.

(** X15. Provided [round] yields a nearest grid-line index, a click
    selects an edge exactly as follows: the edge returned has its flag
    set and the click is near it; a flagged horizontal edge near the
    click is the one returned; a flagged vertical edge near the click is
    returned unless a flagged horizontal edge is near too; and nothing
    is returned exactly when no flagged edge is near the click. *)
Theorem click_selects_near_edge
  (round_div : Z → Z → Z) (x y : Z) (g : Game) :
  rounds_to_nearest round_div →
  (∀ e, fst (get_edge_rect_and_tuple round_div x y g) = Some e →
        edge_exists g e = true ∧ near_edge x y e) ∧
  (∀ e, edge_exists g e = true → near_edge x y e →
        fst (get_edge_rect_and_tuple round_div x y g) = Some e ∨
        (snd e = VERTICAL ∧
         ∃ e', fst (get_edge_rect_and_tuple round_div x y g) = Some e' ∧
               snd e' = HORIZONTAL)) ∧
  (fst (get_edge_rect_and_tuple round_div x y g) = None ↔
   ∀ e, edge_exists g e = true → ¬ near_edge x y e).
Proof.
  intros Hround.
  pose proof (get_edge_rect_and_tuple_cases round_div x y g) as Hcases.
  cbv zeta in Hcases.
  set (eh := candidate_h round_div x y) in *.
  set (ev := candidate_v round_div x y) in *.
  set (hit := fst (get_edge_rect_and_tuple round_div x y g)) in *.
  assert (∀ e, near_edge x y e →
               (snd e = HORIZONTAL ∧ e = eh) ∨ (snd e = VERTICAL ∧ e = ev))
    as Hcand.
  { intros e He. pose proof (near_edge_candidate round_div x y e Hround He).
    destruct e as [sq []]; [left|right]; split; assumption || reflexivity. }
  assert (snd eh = HORIZONTAL) as Horient by reflexivity.
  clearbody eh ev hit.
  destruct Hcases as [(Hnh & Hh & ->) | [(Hno & Hnv & Hv & ->)
                                        | (Hnoh & Hnov & ->)]].
  - split; [|split].
    + intros e [= <-]. split; assumption.
    + intros e Hex Hnear.
      destruct (Hcand e Hnear) as [[Ho ->] | [Ho ->]]; [left; reflexivity|].
      right. split; [assumption|]. exists eh. split; [reflexivity|].
      exact Horient.
    + split; [intros [=]|]. intros Hall. exfalso. exact (Hall eh Hh Hnh).
  - split; [|split].
    + intros e [= <-]. split; assumption.
    + intros e Hex Hnear.
      destruct (Hcand e Hnear) as [[Ho ->] | [Ho ->]]; [|left; reflexivity].
      exfalso. apply Hno. split; assumption.
    + split; [intros [=]|]. intros Hall. exfalso. exact (Hall ev Hv Hnv).
  - split; [|split].
    + intros e [=].
    + intros e Hex Hnear. exfalso.
      destruct (Hcand e Hnear) as [[Ho ->] | [Ho ->]];
        [apply Hnoh | apply Hnov]; split; assumption.
    + split; [|reflexivity]. intros _ e Hex Hnear.
      destruct (Hcand e Hnear) as [[Ho ->] | [Ho ->]];
        [apply Hnoh | apply Hnov]; split; assumption.
Qed.

Lemma round_half_up_div_nearest : rounds_to_nearest round_half_up_div.
Proof.
  intros a. unfold round_half_up_div, SQUARE_SIZE.
  Z.div_mod_to_equations. lia.
Qed.

Lemma click_selects_near_edge_witness :
  rounds_to_nearest round_half_up_div ∧
  fst (get_edge_rect_and_tuple round_half_up_div 30 52 simple_game)
    = Some ((-1, 0), HORIZONTAL) ∧
  edge_exists simple_game ((-1, 0), HORIZONTAL) = true ∧
  near_edge 30 52 ((-1, 0), HORIZONTAL).
Proof.
  split; [exact round_half_up_div_nearest|].
  assert (fst (get_edge_rect_and_tuple round_half_up_div 30 52 simple_game)
          = Some ((-1, 0), HORIZONTAL)) as Hhit by (vm_compute; reflexivity).
  split; [exact Hhit|].
  exact (proj1 (click_selects_near_edge round_half_up_div 30 52 simple_game
                  round_half_up_div_nearest) _ Hhit).
Defined.

(** ** The counter of the last move *)

Lemma reset_counter_matches_last_entry (choice : Edge → Color) (self : Game) :
  counter_matches_last_entry (reset choice self).
Proof.
  destruct (reset_fields choice self) as (_ & _ & _ & _ & Hcount & Hhist).
  unfold counter_matches_last_entry. by rewrite Hcount, Hhist.
Qed.

Lemma make_move_counter_matches_last_entry (g : Game) (e : Edge) :
  counter_matches_last_entry g → is_valid_move g e = true →
  counter_matches_last_entry (fst (make_move g e)).
Proof.
  intros _ Hv. unfold counter_matches_last_entry.
  destruct (make_move_valid_record g e Hv)
    as (r & -> & _ & _ & _ & _ & Hd & _).
  rewrite last_snoc. simpl. rewrite Hd.
  pose proof (make_move_valid g e Hv) as Hmove. cbv zeta in Hmove.
  by destruct Hmove as [-> _].
Qed.

(** X16. In every object reached from a constructed game,
    [last_move_destructions] is the number of squares destroyed by the
    last successful move, 0 when no move has been made since the last
    reset; a failed [make_move] leaves it as it is. *)
Theorem last_move_destructions_is_last_entry
  (choice : Edge → Color) (squares_coords : gset Square)
  (ks : list Call) (e : Edge) :
  let g := run_calls (reset choice (blank squares_coords)) ks in
  last_move_destructions g
    = from_option (λ r, size (MoveData.squares_destroyed r)) 0%nat
        (last (move_history g)) ∧
  (fst (snd (make_move g e)) = false →
   last_move_destructions (fst (make_move g e)) = last_move_destructions g).
Proof.
  intros g. split.
  - apply (reachable_ind counter_matches_last_entry
             reset_counter_matches_last_entry
             make_move_counter_matches_last_entry).
  - rewrite make_move_ok. intros Hv. by rewrite (make_move_invalid g e Hv).
Qed.
